(** * A copy-on-write trie and its versioned store (src/trie/src.hpp)

    The C++ program keeps trie nodes behind [std::shared_ptr]; several tries
    may point at the same node, and [Put] / [Remove] write through pointers to
    nodes they have just allocated.  The embedding therefore keeps an explicit
    node store: an address is an index into a list of nodes, allocation
    appends, and an assignment through a pointer is a list update.  Pointer
    equality is equality of addresses.  Nothing is ever freed in the model
    (reference counts only reclaim nodes nobody can reach any more).

    The locks of [TrieStore] are not modelled: every store operation is taken
    as one sequential step. *)

From Stdlib Require Import ZArith Lia Ascii String.
From stdpp Require Import base option list gmap strings.

(** ** Values

    [TrieNodeWithValue<T>] is a template; the value universe below is the
    tagged union of the instantiations, and [type_of] is the run-time type
    that [dynamic_pointer_cast] inspects. *)

Inductive TypeId := T_uint32 | T_uint64 | T_string.

Inductive Value :=
| V_uint32 (n : Z)
| V_uint64 (n : Z)
| V_string (s : string).

Definition type_of (v : Value) : TypeId :=
  match v with
  | V_uint32 _ => T_uint32
  | V_uint64 _ => T_uint64
  | V_string _ => T_string
  end.

Global Instance TypeId_eq_dec : EqDecision TypeId.
Proof. solve_decision. Defined.

Global Instance Value_eq_dec : EqDecision Value.
Proof. solve_decision. Defined.

(** ** Nodes *)

(** An address is an index into the node store. *)
Abbreviation addr := nat (only parsing).

(** [value_ = None] is an object of dynamic type [TrieNode]; [value_ = Some v]
    is an object of dynamic type [TrieNodeWithValue<type_of v>].  The flag
    [is_value_node_] is a separate field of the base class: [Remove] clears it
    on an object that keeps its dynamic type. *)
Record TrieNode := mkTrieNode {
  children_ : gmap ascii addr;
  is_value_node_ : bool;
  value_ : option Value
}.

(** [TrieNode()] *)
Definition TrieNode_new : TrieNode := mkTrieNode ∅ false None.

(** [TrieNode(children)] *)
Definition TrieNode_of (children : gmap ascii addr) : TrieNode :=
  mkTrieNode children false None.

(** [TrieNodeWithValue<T>(children, value)]: the constructor body sets the flag. *)
Definition TrieNodeWithValue (children : gmap ascii addr) (value : Value) : TrieNode :=
  mkTrieNode children true (Some value).

(** The object a virtual [Clone()] call builds: dispatch is on the dynamic
    type, and both overrides go through a constructor, so the flag of the copy
    is the constructor's, not the flag of the original. *)
Definition clone_node (n : TrieNode) : TrieNode :=
  match value_ n with
  | None => TrieNode_of (children_ n)
  | Some v => TrieNodeWithValue (children_ n) v
  end.

Definition set_children (n : TrieNode) (m : gmap ascii addr) : TrieNode :=
  mkTrieNode m (is_value_node_ n) (value_ n).

Definition set_is_value_node (n : TrieNode) (b : bool) : TrieNode :=
  mkTrieNode (children_ n) b (value_ n).

Definition set_value (n : TrieNode) (v : Value) : TrieNode :=
  mkTrieNode (children_ n) (is_value_node_ n) (Some v).

(** [dynamic_pointer_cast<TrieNodeWithValue<T>>(p)] followed by [->value_]. *)
Definition cast_value (T : TypeId) (n : TrieNode) : option Value :=
  match value_ n with
  | Some v => if decide (type_of v = T) then Some v else None
  | None => None
  end.

(** ** The node store and its monad *)

Abbreviation heap := (list TrieNode) (only parsing).

Inductive fault :=
| NullDeref      (* [->] on a null [shared_ptr] *)
| EmptyPopBack   (* [pop_back()] / [back()] on an empty vector *)
| Dangling.      (* an address outside the store; no C++ pointer is one *)

Inductive outcome (A : Type) :=
| Ok (a : A)
| Fault (f : fault).
Arguments Ok {A} a.
Arguments Fault {A} f.

Definition M (A : Type) : Type := heap → heap * outcome A.

Global Instance M_ret : MRet M := λ A a h, (h, Ok a).

Global Instance M_bind : MBind M := λ A B f m h,
  match m h with
  | (h', Ok a) => f a h'
  | (h', Fault e) => (h', Fault e)
  end.

Definition fail {A} (e : fault) : M A := λ h, (h, Fault e).

Definition load (a : addr) : M TrieNode := λ h,
  match h !! a with
  | Some n => (h, Ok n)
  | None => (h, Fault Dangling)
  end.

Definition store (a : addr) (n : TrieNode) : M unit := λ h, (<[a := n]> h, Ok tt).

(** [std::make_shared] / [std::make_unique]: a new object at a new address. *)
Definition alloc (n : TrieNode) : M addr := λ h, (h ++ [n], Ok (List.length h)).

(** [p->Clone()] for a non-null [p]. *)
Definition Clone (a : addr) : M addr :=
  n ← load a; alloc (clone_node n).

(** [p->children_[ch] = c] *)
Definition set_child (a : addr) (ch : ascii) (c : addr) : M unit :=
  n ← load a; store a (set_children n (<[ch := c]> (children_ n))).

(** [p->children_.erase(ch)] *)
Definition erase_child (a : addr) (ch : ascii) : M unit :=
  n ← load a; store a (set_children n (delete ch (children_ n))).

(** ** Trie *)

(** [root_] is a [shared_ptr] that may be null. *)
Record Trie := mkTrie { root_ : option addr }.

(** [Trie()] *)
Definition Trie_empty : Trie := mkTrie None.

Global Instance Trie_eq_dec : EqDecision Trie.
Proof. solve_decision. Defined.

(** [operator==]: identity of the two roots. *)
Definition Trie_eqb (a b : Trie) : bool := bool_decide (root_ a = root_ b).

(** [Trie::Get<T>].  The loop and the code after it are one recursive
    function: the empty-key equation is the code after the loop, and each
    [Ok None] inside the loop is one of its [return nullptr]. *)
Fixpoint Get_from (h : heap) (T : TypeId) (cur : option addr) (key : string)
  : outcome (option Value) :=
  match key with
  | String ch rest =>
      match cur with
      | None => Ok None
      | Some a =>
          match h !! a with
          | None => Fault Dangling
          | Some n =>
              match children_ n !! ch with
              | None => Ok None
              | Some c => Get_from h T (Some c) rest
              end
          end
      end
  | EmptyString =>
      match cur with
      | None => Ok None
      | Some a =>
          match h !! a with
          | None => Fault Dangling
          | Some n =>
              if is_value_node_ n then
                match cast_value T n with
                | Some v => Ok (Some v)
                | None => Ok None
                end
              else Ok None
          end
      end
  end.

Definition Trie_Get (h : heap) (t : Trie) (T : TypeId) (key : string)
  : outcome (option Value) :=
  Get_from h T (root_ t) key.

(** [Trie::Put<T>]: the [for] loop.  The state is [(parent, pre, pre_char)]. *)
Fixpoint Put_loop (key : string) (parent : addr) (pre : option addr) (pre_char : ascii)
  : M (addr * option addr * ascii) :=
  match key with
  | EmptyString => mret (parent, pre, pre_char)
  | String ch rest =>
      p ← load parent;
      new_node ← match children_ p !! ch with
                 | Some c => Clone c
                 | None => alloc TrieNode_new
                 end;
      set_child parent ch new_node;;
      Put_loop rest new_node (Some parent) ch
  end.

(** The code of [Put] after the loop. *)
Definition Put_finish (value : Value) (parent : addr) (pre : option addr) (pre_char : ascii)
  : M unit :=
  p ← load parent;
  if negb (is_value_node_ p) then
    new_node ← alloc (TrieNodeWithValue (children_ p) value);
    match pre with
    | None => fail NullDeref
    | Some pr => set_child pr pre_char new_node
    end
  else
    match cast_value (type_of value) p with
    | Some _ => store parent (set_value p value)
    | None => mret tt
    end.

Definition Trie_Put (t : Trie) (key : string) (value : Value) : M Trie :=
  new_root ← match root_ t with
             | Some r => Clone r
             | None => alloc TrieNode_new
             end;
  st ← Put_loop key new_root None Ascii.zero;
  Put_finish value st.1.1 st.1.2 st.2;;
  mret (mkTrie (Some new_root)).

(** [Trie::Remove].  [path] is the vector of the source with its back at the
    head of the list.  The [for] loop either leaves by [return *this] or
    falls through with [(parent, path)]; [parent] is never null there. *)
Inductive loop_exit (A : Type) :=
| ReturnThis
| FallThrough (a : A).
Arguments ReturnThis {A}.
Arguments FallThrough {A} a.

Fixpoint Remove_loop (key : string) (parent : addr) (path : list (addr * ascii))
  : M (loop_exit (addr * list (addr * ascii))) :=
  match key with
  | EmptyString => mret (FallThrough (parent, path))
  | String ch rest =>
      p ← load parent;
      match children_ p !! ch with
      | None => mret ReturnThis
      | Some c =>
          new_node ← Clone c;
          set_child parent ch new_node;;
          Remove_loop rest new_node ((parent, ch) :: path)
      end
  end.

(** The test of the pruning loop: [!child->is_value_node_ &&
    child->children_.empty()]. *)
Definition dead (n : TrieNode) : bool :=
  negb (is_value_node_ n) && bool_decide (children_ n = ∅).

(** The [while (!path.empty())] loop. *)
Fixpoint Remove_prune (path : list (addr * ascii)) : M unit :=
  match path with
  | [] => mret tt
  | (node, ch) :: path' =>
      n ← load node;
      match children_ n !! ch with
      | None => Remove_prune path'
      | Some c =>
          child ← load c;
          if dead child then
            erase_child node ch;;
            Remove_prune path'
          else mret tt
      end
  end.

(** The code of [Remove] after the [for] loop.  [this] is the receiver. *)
Definition Remove_finish (this : Trie) (new_root parent : addr) (path : list (addr * ascii))
  : M Trie :=
  p ← load parent;
  if is_value_node_ p then
    store parent (set_is_value_node p false);;
    if bool_decide (children_ p = ∅) then
      match path with
      | [] => fail EmptyPopBack
      | _ :: path' =>
          Remove_prune path';;
          mret (mkTrie (Some new_root))
      end
    else
      parent' ← alloc (TrieNode_of (children_ p));
      match path with
      | (prev, prev_char) :: _ =>
          set_child prev prev_char parent';;
          Remove_prune path;;
          mret (mkTrie (Some new_root))
      | [] =>
          Remove_prune [];;
          mret (mkTrie (Some parent'))
      end
  else mret this.

Definition Trie_Remove (t : Trie) (key : string) : M Trie :=
  match root_ t with
  | None => mret t
  | Some r =>
      new_root ← Clone r;
      ex ← Remove_loop key new_root [];
      match ex with
      | ReturnThis => mret t
      | FallThrough (parent, path) => Remove_finish t new_root parent path
      end
  end.

(** ** TrieStore *)

(** [size_t] on the 64-bit targets the program is built for. *)
Definition size_max : Z := (2 ^ 64 - 1)%Z.

(** [version_] is the [std::atomic<size_t>] member, [snapshots_] the vector. *)
Record TrieStore := mkTrieStore {
  snapshots_ : list Trie;
  version_ : Z
}.

(** The implicit constructor: [snapshots_{1}] is one default-constructed
    [Trie].  [version_] has no initialiser; the default constructor of
    [std::atomic] value-initialises it since C++20, the standard this header
    needs for [!=] on [Trie]. *)
Definition TrieStore_new : TrieStore := mkTrieStore [Trie_empty] 0.

(** [get_version()]: a load of [version_]. *)
Definition get_version (s : TrieStore) : Z := version_ s.

(** [snapshots_.push_back(t)] *)
Definition push_back (s : TrieStore) (t : Trie) : TrieStore :=
  mkTrieStore (snapshots_ s ++ [t]) (version_ s).

(** [ValueGuard<T>]: the trie that keeps the value alive, and the value. *)
Record ValueGuard := mkValueGuard { guard_root_ : Trie; guard_value_ : Value }.

(** [TrieStore::Get<T>(key, version)]; the default argument [-1] converts to
    [size_max]. *)
Definition TrieStore_Get (h : heap) (s : TrieStore) (T : TypeId) (key : string) (version : Z)
  : outcome (option ValueGuard) :=
  let size := Z.of_nat (List.length (snapshots_ s)) in
  let version :=
    if decide (version = size_max) then ((size - 1) `mod` (size_max + 1))%Z else version in
  if decide (version >= size)%Z then Ok None
  else
    match snapshots_ s !! Z.to_nat version with
    | None => Fault Dangling
    | Some t =>
        match Trie_Get h t T key with
        | Ok (Some v) => Ok (Some (mkValueGuard t v))
        | Ok None => Ok None
        | Fault e => Fault e
        end
    end.

(** [TrieStore::Put<T>].  The store is returned next to the outcome, so that
    the snapshots are known whatever happened. *)
Definition TrieStore_Put (s : TrieStore) (key : string) (value : Value) (h : heap)
  : heap * TrieStore * outcome Z :=
  match last (snapshots_ s) with
  | None => (h, s, Fault EmptyPopBack)
  | Some old_trie =>
      match Trie_Put old_trie key value h with
      | (h', Ok new_trie) =>
          let s' := push_back s new_trie in
          (h', s', Ok (get_version s'))
      | (h', Fault e) => (h', s, Fault e)
      end
  end.

(** [TrieStore::Remove] *)
Definition TrieStore_Remove (s : TrieStore) (key : string) (h : heap)
  : heap * TrieStore * outcome Z :=
  match last (snapshots_ s) with
  | None => (h, s, Fault EmptyPopBack)
  | Some cur =>
      match Trie_Remove cur key h with
      | (h', Ok new_trie) =>
          let s' := if negb (Trie_eqb new_trie cur) then push_back s new_trie else s in
          (h', s', Ok (get_version s'))
      | (h', Fault e) => (h', s, Fault e)
      end
  end.

(** The operations of the public interface, and a client that issues them one
    after the other.  A faulting write leaves the store as it was. *)
Inductive store_op :=
| OpGet (T : TypeId) (key : string) (version : Z)
| OpPut (key : string) (value : Value)
| OpRemove (key : string)
| OpGetVersion.

Definition step_op (st : heap * TrieStore) (op : store_op) : heap * TrieStore :=
  match op with
  | OpGet _ _ _ => st
  | OpPut key value => (TrieStore_Put st.2 key value st.1).1
  | OpRemove key => (TrieStore_Remove st.2 key st.1).1
  | OpGetVersion => st
  end.

Definition run_ops (ops : list store_op) : heap * TrieStore :=
  foldl step_op ([], TrieStore_new) ops.

(** ** Vocabulary of the statements *)

(** The node reached from [cur] along [key], following the same [children_]
    lookups as [Get]. *)
Fixpoint walk (h : heap) (cur : addr) (key : string) : option addr :=
  match key with
  | EmptyString => Some cur
  | String ch rest =>
      n ← h !! cur;
      c ← children_ n !! ch;
      walk h c rest
  end.

Definition node_at (h : heap) (t : Trie) (key : string) : option addr :=
  r ← root_ t; walk h r key.

(** Every node of [h] is still there, at the same address and with the same
    content, in [h']. *)
Definition heap_le (h h' : heap) : Prop :=
  ∀ a n, h !! a = Some n → h' !! a = Some n.

(** Between [h] and [h'] nothing was freed, and a node of [h] was written
    only if its address satisfies [P]. *)
Definition writes_within (P : addr → Prop) (h h' : heap) : Prop :=
  length h ≤ length h' ∧ ∀ a, a < length h → ¬ P a → h' !! a = h !! a.

(** Every pointer stored in a node points into the store.  A [shared_ptr]
    always does; the model has to say it. *)
Definition heap_closed (h : heap) : Prop :=
  ∀ a n c b, h !! a = Some n → children_ n !! c = Some b → b < length h.

Definition Trie_wf (h : heap) (t : Trie) : Prop :=
  heap_closed h ∧ ∀ r, root_ t = Some r → r < length h.

(** [m] runs from [h] without a fault, and its result and final store
    satisfy [Q]. *)
Definition wp {A} (m : M A) (Q : A → heap → Prop) (h : heap) : Prop :=
  ∃ a h', m h = (h', Ok a) ∧ Q a h'.

(** [Put] seen from inside its loop: what is still to run when the loop is
    about to read [key] with the state [(parent, pre, pre_char)]. *)
Definition Put_tail (value : Value) (key : string) (parent : addr) (pre : option addr)
    (pre_char : ascii) : M unit :=
  st ← Put_loop key parent pre pre_char;
  Put_finish value st.1.1 st.1.2 st.2.

(** The same for [Remove]. *)
Definition Remove_tail (this : Trie) (new_root : addr) (key : string) (parent : addr)
    (path : list (addr * ascii)) : M Trie :=
  ex ← Remove_loop key parent path;
  match ex with
  | ReturnThis => mret this
  | FallThrough (parent, path) => Remove_finish this new_root parent path
  end.

(** [path.back()], as the pair of [pre] and [pre_char] that [Put] keeps. *)
Definition path_back (path : list (addr * ascii)) : option addr * ascii :=
  match path with
  | [] => (None, Ascii.zero)
  | (x, pc) :: _ => (Some x, pc)
  end.

(** Loop invariant on [pre]: it is a node made by this call (its address is
    not one of [h0], the store at the time of the call), and its [pre_char]
    child is [parent]. *)
Definition pre_ok (h0 h : heap) (parent : addr) (pre : option addr) (pc : ascii) : Prop :=
  match pre with
  | None => True
  | Some x =>
      length h0 ≤ x ∧ x ≠ parent ∧
      ∃ px, h !! x = Some px ∧ children_ px !! pc = Some parent
  end.

(** Loop invariant on the path of [Remove]: [pre_ok] for its back, and the
    entry under the back points at the back. *)
Definition path_ok (h0 h : heap) (parent : addr) (path : list (addr * ascii)) : Prop :=
  pre_ok h0 h parent (path_back path).1 (path_back path).2 ∧
  match path with
  | (x, _) :: (y, pc') :: _ =>
      y ≠ parent ∧ y ≠ x ∧ ∃ py, h !! y = Some py ∧ children_ py !! pc' = Some x
  | _ => True
  end.

(** After the call, [e] stands where [parent] stood: under [pre], or as the
    root when there is no [pre]. *)
Definition entry_at (h1 h2 : heap) (pre : option addr) (pc : ascii) (parent e : addr) : Prop :=
  match pre with
  | None => e = parent
  | Some x =>
      ∃ px, h1 !! x = Some px ∧
            h2 !! x = Some (set_children px (<[pc := e]> (children_ px)))
  end.

(** The same for [Remove], which may also replace the root: the returned
    trie is rooted at [e] when the path is empty. *)
Definition replaced_by (h1 h2 : heap) (new_root : addr) (path : list (addr * ascii))
    (t' : Trie) (e : addr) : Prop :=
  match path with
  | [] => t' = mkTrie (Some e)
  | (x, pc) :: _ =>
      t' = mkTrie (Some new_root) ∧
      ∃ px, h1 !! x = Some px ∧
            h2 !! x = Some (set_children px (<[pc := e]> (children_ px)))
  end.

(** Sharing below one node: [m] is the children map of a node of [h0], [e] is
    the node that replaces it in [h], and every node that [h0] reaches
    through [m] along a key that leaves the path [key] is reached in [h]
    from [e] along the same key, at the same address. *)
Definition shares (h0 h : heap) (e : addr) (key : string) (m : gmap ascii addr) : Prop :=
  ∀ c rest a1 a,
    String.prefix (String c rest) key = false →
    m !! c = Some a1 →
    walk h0 a1 rest = Some a →
    walk h e (String c rest) = Some a.

(** What [Put<T>] needs of the node it ends on, seen from inside the loop:
    [p] is the node at [parent], and the node of [h0] that [key] leads to
    through the children of [p], if there is one, holds no value of a type
    other than [T]. *)
Definition no_other_type (h0 : heap) (T : TypeId) (p : TrieNode) (key : string) : Prop :=
  match key with
  | EmptyString => is_value_node_ p = true → ∃ u, value_ p = Some u ∧ type_of u = T
  | String ch rest =>
      ∀ a1 a n u,
        children_ p !! ch = Some a1 → walk h0 a1 rest = Some a → h0 !! a = Some n →
        value_ n = Some u → type_of u = T
  end.

(** Where the loop of [Put] stands in the new trie: the walk from [pre]
    through [pre_char], or from [parent] when there is no [pre]. *)
Definition walk_start (pre : option addr) (parent : addr) : addr :=
  match pre with
  | Some x => x
  | None => parent
  end.

Definition walk_key (pre : option addr) (pc : ascii) (key : string) : string :=
  match pre with
  | Some _ => String pc key
  | None => key
  end.

(** The node the loop of [Remove] ends on, when it gets there: the clone of
    the clone of ... the child of [p] along [key], where the children are
    nodes of [h0]. *)
Fixpoint terminal_clone (h0 : heap) (p : TrieNode) (key : string) : option TrieNode :=
  match key with
  | EmptyString => Some p
  | String ch rest =>
      a1 ← children_ p !! ch;
      o ← h0 !! a1;
      terminal_clone h0 (clone_node o) rest
  end.

(** The value member of the object a trie holds at [key]: [Some] exactly when
    that object is a [TrieNodeWithValue], whatever its flag says. *)
Definition value_object_at (h : heap) (t : Trie) (key : string) : option Value :=
  a ← node_at h t key; n ← h !! a; value_ n.

(** The node that takes the place of the node [pt] on which [Remove] clears
    the flag. *)
Definition cleared (pt : TrieNode) : TrieNode :=
  if bool_decide (children_ pt = ∅) then set_is_value_node pt false
  else TrieNode_of (children_ pt).

(** ** Client code

    Small programs over the interface, in the monad of the node store; each is
    run on the empty store. *)

(** [t.Get<T>(key)] as a step of a client program. *)
Definition Trie_Get_m (t : Trie) (T : TypeId) (key : string) : M (option Value) :=
  λ h, (h, Trie_Get h t T key).

(** The node a trie holds at [key], if any. *)
Definition node_of (t : Trie) (key : string) : M (option TrieNode) :=
  λ h, (h, Ok (a ← node_at h t key; h !! a)).

(** [Put<uint32_t>("a", 1)], then [Put<uint64_t>("a", 2)], then both reads. *)
Definition client_put_other_type : M (option Value * option Value) :=
  t1 ← Trie_Put Trie_empty "a" (V_uint32 1);
  t2 ← Trie_Put t1 "a" (V_uint64 2);
  g64 ← Trie_Get_m t2 T_uint64 "a";
  g32 ← Trie_Get_m t2 T_uint32 "a";
  mret (g64, g32).

(** [Put("a", 1)] then [Remove("a")]: the trie, what it holds at ["a"], and
    what [Get] says. *)
Definition client_remove_leaf : M (Trie * option TrieNode * option Value) :=
  t1 ← Trie_Put Trie_empty "a" (V_uint32 1);
  t2 ← Trie_Remove t1 "a";
  n ← node_of t2 "a";
  g ← Trie_Get_m t2 T_uint32 "a";
  mret (t2, n, g).

(** Scenario 6 of the specification: [Put("a", 1)], [Put("ab", 2)],
    [Remove("ab")], [Remove("a")]. *)
Definition client_remove_chain : M (Trie * Trie * option TrieNode * option TrieNode) :=
  t1 ← Trie_Put Trie_empty "a" (V_uint32 1);
  t2 ← Trie_Put t1 "ab" (V_uint32 2);
  t3 ← Trie_Remove t2 "ab";
  t4 ← Trie_Remove t3 "a";
  na ← node_of t4 "a";
  nab ← node_of t4 "ab";
  mret (t3, t4, na, nab).

(** [Put("a", 1)], [Remove("a")], and [Remove("a")] once more. *)
Definition client_remove_twice : M (Trie * Trie) :=
  t1 ← Trie_Put Trie_empty "a" (V_uint32 1);
  t2 ← Trie_Remove t1 "a";
  t3 ← Trie_Remove t2 "a";
  mret (t2, t3).

(** The receiver of the last [Remove] above, with the node it holds at
    ["a"], and the result of that [Remove]. *)
Definition client_remove_absent : M (Trie * option TrieNode * option Value * Trie) :=
  t1 ← Trie_Put Trie_empty "a" (V_uint32 1);
  t2 ← Trie_Remove t1 "a";
  n ← node_of t2 "a";
  g ← Trie_Get_m t2 T_uint32 "a";
  t3 ← Trie_Remove t2 "a";
  mret (t2, n, g, t3).

(** A trie with the keys ["ab"] and ["ac"], and the store it lives in. *)
Definition two_keys : heap * outcome Trie :=
  (t1 ← Trie_Put Trie_empty "ab" (V_uint32 1); Trie_Put t1 "ac" (V_uint32 2)) [].

Definition two_keys_trie : Trie :=
  match two_keys.2 with
  | Ok t => t
  | Fault _ => Trie_empty
  end.

(** What a call leaves under the back of the path: the same children, but
    for the one on the path. *)
Definition back_kept (h1 h2 : heap) (path : list (addr * ascii)) : Prop :=
  match path with
  | [] => True
  | (x, pc) :: _ =>
      ∃ px px', h1 !! x = Some px ∧ h2 !! x = Some px' ∧
                ∀ c, c ≠ pc → children_ px' !! c = children_ px !! c
  end.

(** The node that the loop of [Put] makes for the key [q], starting from the
    node [p]: at each character the clone of the child in [h0], or a new
    empty node when there is no child. *)
Fixpoint put_clone (h0 : heap) (p : TrieNode) (q : string) : TrieNode :=
  match q with
  | EmptyString => p
  | String c rest =>
      put_clone h0
        (match a1 ← children_ p !! c; h0 !! a1 with
         | Some o => clone_node o
         | None => TrieNode_new
         end) rest
  end.

(** What [Get<T>] reads off a [TrieNodeWithValue] object whose flag is set,
    given its value member. *)
Definition read_object (T : TypeId) (o : option Value) : option Value :=
  match o with
  | Some u => if decide (type_of u = T) then Some u else None
  | None => None
  end.

(** ** Well-formed stores, checked by computation *)

(** Every child pointer of [n] is below [len]. *)
Definition children_below (len : nat) (n : TrieNode) : bool :=
  forallb (λ cb : ascii * nat, cb.2 <? len) (map_to_list (children_ n)).

(** [heap_closed], as a test. *)
Definition heap_closedb (h : heap) : bool :=
  forallb (children_below (length h)) h.

Definition root_below (len : nat) (t : Trie) : bool :=
  match root_ t with
  | Some r => r <? len
  | None => true
  end.

(** [Trie_wf], as a test. *)
Definition Trie_wfb (h : heap) (t : Trie) : bool :=
  heap_closedb h && root_below (length h) t.

(** A store is well formed when its vector is not empty and every snapshot
    is a well-formed trie of the node store. *)
Definition Store_wf (h : heap) (s : TrieStore) : Prop :=
  heap_closed h ∧ snapshots_ s ≠ [] ∧ Forall (Trie_wf h) (snapshots_ s).

Definition Store_wfb (h : heap) (s : TrieStore) : bool :=
  heap_closedb h &&
  match snapshots_ s with
  | [] => false
  | _ => forallb (root_below (length h)) (snapshots_ s)
  end.

(** What the code after the loop of [Get<T>] reads off a node. *)
Definition read_node (T : TypeId) (n : TrieNode) : option Value :=
  if is_value_node_ n then cast_value T n else None.

(** What [TrieStore::Get] makes of the answer of [Trie::Get] on the snapshot
    [t]: a guard that holds [t], or nothing. *)
Definition guard_of (t : Trie) (r : outcome (option Value)) : outcome (option ValueGuard) :=
  match r with
  | Ok (Some v) => Ok (Some (mkValueGuard t v))
  | Ok None => Ok None
  | Fault e => Fault e
  end.

(** A store with three writes behind it: [Put("cat", 1)], [Put("car", 2)],
    [Remove("cat")]. *)
Definition three_writes : heap * TrieStore :=
  run_ops [OpPut "cat" (V_uint32 1); OpPut "car" (V_uint32 2); OpRemove "cat"].

(** The trie left by [Put("a", 1)] and [Remove("a")], and its store. *)
Definition removed_leaf : heap * outcome Trie :=
  (t1 ← Trie_Put Trie_empty "a" (V_uint32 1); Trie_Remove t1 "a") [].

Definition removed_leaf_trie : Trie :=
  match removed_leaf.2 with
  | Ok t => t
  | Fault _ => Trie_empty
  end.

(** A store after [Put("cat", 1)]. *)
Definition one_write : heap * TrieStore := run_ops [OpPut "cat" (V_uint32 1)].

(** ** Facts about the node store *)

Section heap_facts.
Implicit Types (h : heap) (a : addr) (n : TrieNode).

Lemma heap_le_refl h : heap_le h h.
Proof. by intros a n. Qed.

Lemma heap_le_prefix h h' : heap_le h h' ↔ h `prefix_of` h'.
Proof.
  split.
  - intros Hle. exists (drop (length h) h').
    rewrite <- (take_drop (length h) h') at 1. f_equal.
    apply list_eq. intros i. destruct (decide (i < length h)) as [Hi|Hi].
    + rewrite lookup_take_lt by done.
      destruct (lookup_lt_is_Some_2 h i Hi) as [n Hn].
      by rewrite Hn, (Hle _ _ Hn).
    + rewrite lookup_take_ge by lia. symmetry. apply lookup_ge_None. lia.
  - intros [k ->] a n Ha. by apply lookup_app_l_Some.
Qed.

Lemma writes_within_refl P h : writes_within P h h.
Proof. by split. Qed.

Lemma writes_within_trans (P : addr → Prop) h1 h2 h3 :
  writes_within P h1 h2 → writes_within P h2 h3 → writes_within P h1 h3.
Proof.
  intros [Hl1 H1] [Hl2 H2]. split; [lia|].
  intros a Ha HP. rewrite H2 by (done || lia). by apply H1.
Qed.

(** A later write to an address that the earlier heap did not have is not
    a write to one of its nodes. *)
Lemma writes_within_seq (P Q : addr → Prop) h1 h2 h3 :
  writes_within P h1 h2 → writes_within Q h2 h3 →
  (∀ a, a < length h1 → Q a → P a) →
  writes_within P h1 h3.
Proof.
  intros [Hl1 H1] [Hl2 H2] HQP. split; [lia|].
  intros a Ha HP. rewrite H2 by (lia || naive_solver). by apply H1.
Qed.

Lemma writes_within_weaken (P Q : addr → Prop) h1 h2 :
  (∀ a, a < length h1 → P a → Q a) → writes_within P h1 h2 → writes_within Q h1 h2.
Proof. intros HPQ [Hl H]. split; [done|]. intros a Ha HQ. apply H; naive_solver. Qed.

Lemma writes_within_alloc P h n : writes_within P h (h ++ [n]).
Proof.
  split; [rewrite length_app; lia|].
  intros a Ha _. by apply lookup_app_l.
Qed.

Lemma writes_within_store (P : addr → Prop) h a n : P a → writes_within P h (<[a := n]> h).
Proof.
  intros HP. split; [by rewrite length_insert|].
  intros b Hb HPb. apply list_lookup_insert_ne. congruence.
Qed.

(** Nothing below [k] was written: the first [k] nodes are kept. *)
Lemma writes_within_heap_le h0 h1 h2 :
  heap_le h0 h1 → writes_within (λ a, length h0 ≤ a) h1 h2 → heap_le h0 h2.
Proof.
  intros Hle [Hlen H] a n Ha.
  assert (a < length h0) by (by eapply lookup_lt_Some).
  assert (a < length h1) by (eapply lookup_lt_Some; by apply Hle).
  rewrite H by lia. by apply Hle.
Qed.

Lemma walk_heap_le h h' a key b : heap_le h h' → walk h a key = Some b → walk h' a key = Some b.
Proof.
  intros Hle. revert a. induction key as [|ch rest IH]; intros a; simpl; [done|].
  destruct (h !! a) as [n|] eqn:Hn; simpl; [|done].
  rewrite (Hle _ _ Hn). simpl.
  destruct (children_ n !! ch) as [c|]; simpl; [|done]. apply IH.
Qed.

Lemma Get_from_heap_le h h' T cur key r :
  heap_le h h' → Get_from h T cur key = Ok r → Get_from h' T cur key = Ok r.
Proof.
  intros Hle. revert cur. induction key as [|ch rest IH]; intros [a|]; simpl; try done.
  - destruct (h !! a) as [n|] eqn:Hn; [|done]. by rewrite (Hle _ _ Hn).
  - destruct (h !! a) as [n|] eqn:Hn; [|done]. rewrite (Hle _ _ Hn).
    destruct (children_ n !! ch); [apply IH|done].
Qed.
End heap_facts.

(** ** Running the monad *)

Section monad_facts.
Lemma load_Some h a n : h !! a = Some n → load a h = (h, Ok n).
Proof. intros H. unfold load. by rewrite H. Qed.

Lemma load_None h a : h !! a = None → load a h = (h, Fault Dangling).
Proof. intros H. unfold load. by rewrite H. Qed.

Lemma bind_Ok {A B} (m : M A) (f : A → M B) h h' a :
  m h = (h', Ok a) → (m ≫= f) h = f a h'.
Proof. intros H. unfold mbind, M_bind. by rewrite H. Qed.

Lemma bind_Fault {A B} (m : M A) (f : A → M B) h h' e :
  m h = (h', Fault e) → (m ≫= f) h = (h', Fault e).
Proof. intros H. unfold mbind, M_bind. by rewrite H. Qed.

Lemma Clone_Some h a n :
  h !! a = Some n → Clone a h = (h ++ [clone_node n], Ok (length h)).
Proof. intros H. unfold Clone. by rewrite (bind_Ok _ _ _ _ _ (load_Some _ _ _ H)). Qed.

Lemma Clone_None h a : h !! a = None → Clone a h = (h, Fault Dangling).
Proof. intros H. unfold Clone. by rewrite (bind_Fault _ _ _ _ _ (load_None _ _ H)). Qed.

Lemma set_child_Some h a ch c n :
  h !! a = Some n →
  set_child a ch c h = (<[a := set_children n (<[ch := c]> (children_ n))]> h, Ok tt).
Proof. intros H. unfold set_child. by rewrite (bind_Ok _ _ _ _ _ (load_Some _ _ _ H)). Qed.

Lemma set_children_id n ch c :
  children_ n !! ch = Some c → set_children n (<[ch := c]> (children_ n)) = n.
Proof. intros H. destruct n as [m b v]. unfold set_children. simpl in *. by rewrite insert_id. Qed.

Lemma children_clone_node n : children_ (clone_node n) = children_ n.
Proof. unfold clone_node. by destruct (value_ n). Qed.

Lemma store_run h a n : store a n h = (<[a := n]> h, Ok tt).
Proof. reflexivity. Qed.

Lemma alloc_run h n : alloc n h = (h ++ [n], Ok (length h)).
Proof. reflexivity. Qed.

Lemma lookup_alloc (h : heap) n : (h ++ [n]) !! length h = Some n.
Proof. by apply list_lookup_middle. Qed.
End monad_facts.

(** ** Runs without a fault *)

Section wp_facts.
Context {A B : Type}.
Implicit Types (h : heap) (n : TrieNode).

Lemma wp_ret (a : A) (Q : A → heap → Prop) h : Q a h → wp (mret a) Q h.
Proof. intros HQ. by exists a, h. Qed.

Lemma wp_bind (m : M A) (f : A → M B) (Q : B → heap → Prop) h :
  wp m (λ a h', wp (f a) Q h') h → wp (m ≫= f) Q h.
Proof.
  intros (a & h' & Hm & b & h'' & Hf & HQ). exists b, h''.
  by rewrite (bind_Ok _ _ _ _ _ Hm).
Qed.

Lemma wp_mono (m : M A) (Q Q' : A → heap → Prop) h :
  wp m Q h → (∀ a h', Q a h' → Q' a h') → wp m Q' h.
Proof. intros (a & h' & Hm & HQ) HQQ. exists a, h'. auto. Qed.
End wp_facts.

Section wp_primitives.
Implicit Types (h : heap) (n : TrieNode).

Lemma wp_load a n (Q : TrieNode → heap → Prop) h :
  h !! a = Some n → Q n h → wp (load a) Q h.
Proof. intros Hn HQ. exists n, h. by rewrite (load_Some _ _ _ Hn). Qed.

Lemma wp_store a n (Q : unit → heap → Prop) h :
  Q tt (<[a := n]> h) → wp (store a n) Q h.
Proof. intros HQ. by exists tt, (<[a := n]> h). Qed.

Lemma wp_alloc n (Q : nat → heap → Prop) h :
  Q (length h) (h ++ [n]) → wp (alloc n) Q h.
Proof. intros HQ. by exists (length h), (h ++ [n]). Qed.

Lemma wp_Clone a n (Q : nat → heap → Prop) h :
  h !! a = Some n → Q (length h) (h ++ [clone_node n]) → wp (Clone a) Q h.
Proof. intros Hn HQ. exists (length h), (h ++ [clone_node n]). by rewrite (Clone_Some _ _ _ Hn). Qed.

Lemma wp_set_child a ch c n (Q : unit → heap → Prop) h :
  h !! a = Some n →
  Q tt (<[a := set_children n (<[ch := c]> (children_ n))]> h) →
  wp (set_child a ch c) Q h.
Proof. intros Hn HQ. eexists tt, _. by rewrite (set_child_Some _ _ _ _ _ Hn). Qed.

Lemma wp_erase_child a ch n (Q : unit → heap → Prop) h :
  h !! a = Some n →
  Q tt (<[a := set_children n (delete ch (children_ n))]> h) →
  wp (erase_child a ch) Q h.
Proof.
  intros Hn HQ. eexists tt, _. unfold erase_child.
  by rewrite (bind_Ok _ _ _ _ _ (load_Some _ _ _ Hn)).
Qed.


Lemma heap_closed_alloc h n :
  heap_closed h →
  (∀ c b, children_ n !! c = Some b → b < length h) →
  heap_closed (h ++ [n]).
Proof.
  intros Hcl Hn a m c b Ha Hc. rewrite length_app. simpl.
  destruct (decide (a < length h)) as [Hlt|Hge].
  - rewrite lookup_app_l in Ha by done. specialize (Hcl _ _ _ _ Ha Hc). lia.
  - rewrite lookup_app_r in Ha by lia.
    destruct (a - length h) as [|k]; simpl in Ha; [|done].
    injection Ha as <-. specialize (Hn _ _ Hc). lia.
Qed.

Lemma heap_closed_store h a n :
  heap_closed h →
  (∀ c b, children_ n !! c = Some b → b < length h) →
  heap_closed (<[a := n]> h).
Proof.
  intros Hcl Hn a' m c b Ha Hc. rewrite length_insert.
  destruct (decide (a = a')) as [<-|Hne].
  - assert (a < length h) as Hlt.
    { apply lookup_lt_Some in Ha. by rewrite length_insert in Ha. }
    rewrite list_lookup_insert_eq in Ha by done. injection Ha as <-. by eapply Hn.
  - rewrite list_lookup_insert_ne in Ha by done. by eapply Hcl.
Qed.

Lemma heap_closed_set_child h a n ch c :
  heap_closed h → h !! a = Some n → c < length h →
  heap_closed (<[a := set_children n (<[ch := c]> (children_ n))]> h).
Proof.
  intros Hcl Hn Hc. apply heap_closed_store; [done|].
  intros c' b. simpl. rewrite lookup_insert. case_decide.
  - by intros [= <-].
  - by apply (Hcl a n).
Qed.
End wp_primitives.

(** ** [Trie::Get] *)

Section get_facts.
Variables (h : heap) (T : TypeId).

(** What the code after the loop of [Get] returns on a node. *)
Lemma Get_from_nil a n :
  h !! a = Some n →
  Get_from h T (Some a) "" =
  if is_value_node_ n then
    match cast_value T n with
    | Some v => Ok (Some v)
    | None => Ok None
    end
  else Ok None.
Proof. intros Hn. simpl. by rewrite Hn. Qed.

Lemma Get_from_app pfx : ∀ r key a,
  walk h r pfx = Some a →
  Get_from h T (Some r) (pfx ++ key) = Get_from h T (Some a) key.
Proof.
  induction pfx as [|ch pfx IH]; intros r key a Hw; simpl in *.
  { by injection Hw as ->. }
  destruct (h !! r) as [n|]; [|done]. simpl in Hw.
  destruct (children_ n !! ch) as [c|]; [|done]. simpl in Hw.
  destruct key; by apply IH.
Qed.

Lemma Get_from_walk r key a :
  walk h r key = Some a → Get_from h T (Some r) key = Get_from h T (Some a) "".
Proof.
  intros Hw. rewrite <- (Get_from_app key r "" a Hw).
  f_equal. clear. induction key as [|c k IH]; [done|].
  change (String c k +:+ "") with (String c (k +:+ "")). by rewrite <- IH.
Qed.

Lemma Get_from_null key : Get_from h T None key = Ok None.
Proof. by destruct key. Qed.

Lemma Get_from_no_child a n c rest :
  h !! a = Some n → children_ n !! c = None →
  Get_from h T (Some a) (String c rest) = Ok None.
Proof. intros Hn Hc. simpl. by rewrite Hn, Hc. Qed.
End get_facts.

(** ** Sharing *)

Section sharing_facts.
Variable h0 : heap.

(** A node with the children of the node it replaces shares everything. *)
Lemma shares_same h e key pe :
  heap_le h0 h → h !! e = Some pe → shares h0 h e key (children_ pe).
Proof.
  intros Hle He c rest a1 a _ Hc Hw. simpl.
  rewrite He. simpl. rewrite Hc. simpl. by eapply walk_heap_le.
Qed.

(** A node whose [ch] child was replaced shares what hangs off its other
    children, and below [ch] whatever the replacement shares. *)
Lemma shares_cons h parent ch rest e' pp (m : gmap ascii addr) :
  heap_le h0 h →
  h !! parent = Some pp →
  children_ pp = <[ch := e']> m →
  (∀ a1 o, m !! ch = Some a1 → h0 !! a1 = Some o → shares h0 h e' rest (children_ o)) →
  shares h0 h parent (String ch rest) m.
Proof.
  intros Hle Hp Hch IH c rq a1 a Hpre Hc Hw. simpl.
  rewrite Hp. simpl. rewrite Hch.
  destruct (decide (ch = c)) as [->|Hne].
  - rewrite lookup_insert_eq. simpl.
    simpl in Hpre. destruct (ascii_dec c c); [|done].
    destruct rq as [|c2 r2]; [by destruct rest|].
    simpl in Hw. destruct (h0 !! a1) as [o|] eqn:Ho; [|done]. simpl in Hw.
    destruct (children_ o !! c2) as [a2|] eqn:Hc2; [|done]. simpl in Hw.
    by eapply (IH a1 o Hc Ho c2 r2 a2 a).
  - rewrite lookup_insert_ne by done. rewrite Hc. simpl. by eapply walk_heap_le.
Qed.

(** Writing [parent] and [pre] leaves the nodes of [h0] alone. *)
Lemma fresh_writes_heap_le h1 h2 parent pre pc :
  heap_le h0 h1 → length h0 ≤ parent → pre_ok h0 h1 parent pre pc →
  writes_within (λ a, a = parent ∨ Some a = pre) h1 h2 → heap_le h0 h2.
Proof.
  intros Hle Hp Hpre Hw. eapply writes_within_heap_le; [done|].
  eapply writes_within_weaken; [|done].
  intros a _ [->|Ha]; [done|]. subst pre. by destruct Hpre.
Qed.
End sharing_facts.

(** ** [Trie::Put] *)

Section put_facts.
Variable h0 : heap.
Variable value : Value.

Lemma Put_tail_nil parent pre pc h :
  Put_tail value "" parent pre pc h = Put_finish value parent pre pc h.
Proof. reflexivity. Qed.

Lemma Put_tail_cons ch rest parent pre pc h :
  Put_tail value (String ch rest) parent pre pc h =
  (p ← load parent;
   new_node ← match children_ p !! ch with
              | Some c => Clone c
              | None => alloc TrieNode_new
              end;
   set_child parent ch new_node;;
   Put_tail value rest new_node (Some parent) ch) h.
Proof.
  unfold Put_tail. cbn [Put_loop]. unfold mbind, M_bind.
  destruct (load parent h) as [h1 [p|e]]; [|done].
  destruct (match children_ p !! ch with Some c => Clone c | None => alloc TrieNode_new end h1)
    as [h2 [nn|e]]; [|done].
  by destruct (set_child parent ch nn h2) as [h3 [[]|e]].
Qed.

Lemma Put_finish_spec parent pre pc h1 p h2 r :
  heap_le h0 h1 → length h0 ≤ parent → h1 !! parent = Some p →
  pre_ok h0 h1 parent pre pc →
  Put_finish value parent pre pc h1 = (h2, r) →
  writes_within (λ a, a = parent ∨ Some a = pre) h1 h2 ∧
  (r = Ok tt →
   ∃ e, length h0 ≤ e ∧ entry_at h1 h2 pre pc parent e ∧ shares h0 h2 e "" (children_ p)).
Proof.
  intros Hle Hlo Hp Hpre Hrun.
  assert (parent < length h1) as Hlt by (by eapply lookup_lt_Some).
  unfold Put_finish in Hrun. rewrite (bind_Ok _ _ _ _ _ (load_Some _ _ _ Hp)) in Hrun.
  destruct (is_value_node_ p) eqn:Hv; simpl in Hrun.
  - (* the terminal node already has a value: at most its value changes *)
    assert (∃ p', h2 = <[parent := p']> h1 ∧ children_ p' = children_ p) as (p' & -> & Hc).
    { destruct (cast_value (type_of value) p); inversion Hrun; subst.
      - by eexists.
      - exists p. by rewrite list_insert_id. }
    assert (writes_within (λ a, a = parent ∨ Some a = pre) h1 (<[parent := p']> h1)) as Hw
      by (apply writes_within_store; by left).
    split; [done|]. intros _. exists parent. split; [done|].
    assert (heap_le h0 (<[parent := p']> h1)) as Hle2 by (by eapply fresh_writes_heap_le).
    split.
    + destruct pre as [x|]; [|done]. destruct Hpre as (Hx0 & Hxp & px & Hx & Hpx).
      exists px. split; [done|]. rewrite set_children_id by done.
      by rewrite list_lookup_insert_ne.
    + rewrite <- Hc. apply shares_same; [done|]. by apply list_lookup_insert_eq.
  - (* no value yet: a new node with the value takes its place under [pre] *)
    unfold mbind, M_bind, alloc in Hrun. simpl in Hrun.
    destruct pre as [x|].
    + destruct Hpre as (Hx0 & Hxp & px & Hx & Hpx).
      assert (x < length h1) as Hxlt by (by eapply lookup_lt_Some).
      fold (@mbind M _) in Hrun.
      rewrite (set_child_Some _ _ _ _ px) in Hrun by (by apply lookup_app_l_Some).
      inversion Hrun; subst. clear Hrun.
      set (nn := TrieNodeWithValue (children_ p) value).
      set (px' := set_children px (<[pc := length h1]> (children_ px))).
      assert (writes_within (λ a, a = parent ∨ Some a = Some x) h1 (<[x := px']> (h1 ++ [nn])))
        as Hw.
      { eapply writes_within_trans; [apply writes_within_alloc|].
        apply writes_within_store. by right. }
      split; [done|]. intros _. exists (length h1). split; [lia|].
      assert (heap_le h0 (<[x := px']> (h1 ++ [nn]))) as Hle2.
      { apply (fresh_writes_heap_le h0 h1 _ parent (Some x) pc); [done|done| |done].
        simpl. eauto. }
      split.
      * exists px. split; [done|]. apply list_lookup_insert_eq.
        rewrite length_app. simpl. lia.
      * change (children_ p) with (children_ nn). apply shares_same; [done|].
        rewrite list_lookup_insert_ne by lia. apply lookup_alloc.
    + inversion Hrun; subst. split; [apply writes_within_alloc|done].
Qed.

Lemma Put_tail_spec key : ∀ parent pre pc h1 p h2 r,
  heap_le h0 h1 → length h0 ≤ parent → h1 !! parent = Some p →
  pre_ok h0 h1 parent pre pc →
  Put_tail value key parent pre pc h1 = (h2, r) →
  writes_within (λ a, a = parent ∨ Some a = pre) h1 h2 ∧
  (r = Ok tt →
   ∃ e, length h0 ≤ e ∧ entry_at h1 h2 pre pc parent e ∧ shares h0 h2 e key (children_ p)).
Proof.
  induction key as [|ch rest IH]; intros parent pre pc h1 p h2 r Hle Hlo Hp Hpre Hrun.
  { rewrite Put_tail_nil in Hrun. by eapply Put_finish_spec. }
  rewrite Put_tail_cons in Hrun.
  assert (parent < length h1) as Hlt by (by eapply lookup_lt_Some).
  rewrite (bind_Ok _ _ _ _ _ (load_Some _ _ _ Hp)) in Hrun.
  set (mk := match children_ p !! ch with
             | Some c => Clone c
             | None => alloc TrieNode_new
             end) in Hrun.
  assert (mk h1 = (h1, Fault Dangling) ∨
          ∃ nn, mk h1 = (h1 ++ [nn], Ok (length h1)) ∧
                ∀ a1 o, children_ p !! ch = Some a1 → h0 !! a1 = Some o →
                        children_ nn = children_ o) as [Hmk | (nn & Hmk & Hnn)].
  { subst mk. destruct (children_ p !! ch) as [c|] eqn:Hc.
    - destruct (h1 !! c) as [o|] eqn:Ho.
      + right. exists (clone_node o). split; [by apply Clone_Some|].
        intros a1 o' [= <-] Ho'. rewrite children_clone_node.
        apply Hle in Ho'. congruence.
      + left. by apply Clone_None.
    - right. exists TrieNode_new. split; [done|]. by intros. }
  { rewrite (bind_Fault _ _ _ _ _ Hmk) in Hrun. inversion Hrun; subst.
    split; [apply writes_within_refl|done]. }
  rewrite (bind_Ok _ _ _ _ _ Hmk) in Hrun.
  set (p1 := set_children p (<[ch := length h1]> (children_ p))).
  assert ((h1 ++ [nn]) !! parent = Some p) as Hp1 by (by apply lookup_app_l_Some).
  rewrite (bind_Ok _ _ _ _ _ (set_child_Some _ _ ch (length h1) _ Hp1)) in Hrun.
  fold p1 in Hrun. set (h1' := <[parent := p1]> (h1 ++ [nn])) in Hrun.
  assert (length h1' = S (length h1)) as Hlen'
    by (subst h1'; rewrite length_insert, length_app; simpl; lia).
  assert (h1' !! parent = Some p1) as Hp1'.
  { subst h1'. apply list_lookup_insert_eq. rewrite length_app. simpl. lia. }
  assert (writes_within (λ a, a = parent ∨ Some a = pre) h1 h1') as Hw1.
  { eapply writes_within_trans; [apply writes_within_alloc|].
    apply writes_within_store. by left. }
  assert (heap_le h0 h1') as Hle'
    by (by apply (fresh_writes_heap_le h0 h1 h1' parent pre pc)).
  destruct (IH (length h1) (Some parent) ch h1' nn h2 r) as [Hw HS]; try done.
  { lia. }
  { subst h1'. rewrite list_lookup_insert_ne by lia. apply lookup_alloc. }
  { simpl. split; [done|]. split; [lia|]. exists p1. split; [done|].
    subst p1. simpl. apply lookup_insert_eq. }
  assert (writes_within (λ a, a = parent ∨ Some a = pre) h1 h2) as Hw2.
  { eapply writes_within_seq; [exact Hw1|exact Hw|].
    intros a Ha [->|[= ->]]; [lia|by left]. }
  split; [done|]. intros ->.
  destruct (HS eq_refl) as (e' & He' & (px & Hpx1 & Hpx2) & Hsh).
  assert (px = p1) as -> by congruence.
  exists parent. split; [done|]. split.
  - destruct pre as [x|]; [|done]. destruct Hpre as (Hx0 & Hxp & px & Hx & Hpx).
    assert (x < length h1) as Hxlt by (by eapply lookup_lt_Some).
    exists px. split; [done|]. rewrite set_children_id by done.
    destruct Hw as [_ Hw]. rewrite Hw.
    + subst h1'. rewrite list_lookup_insert_ne by done. by apply lookup_app_l_Some.
    + lia.
    + intros [->|[= ->]]; [lia|done].
  - eapply shares_cons;
      [by apply (fresh_writes_heap_le h0 h1 h2 parent pre pc)|exact Hpx2| |].
    + subst p1. simpl. apply insert_insert_eq.
    + intros a1 o Ha1 Ho. rewrite <- (Hnn a1 o Ha1 Ho). exact Hsh.
Qed.

Lemma Trie_Put_unfold t key h :
  Trie_Put t key value h =
  (new_root ← match root_ t with
              | Some r => Clone r
              | None => alloc TrieNode_new
              end;
   Put_tail value key new_root None Ascii.zero;;
   mret (mkTrie (Some new_root))) h.
Proof.
  unfold Trie_Put, Put_tail, mbind, M_bind.
  destruct (match root_ t with Some r => Clone r | None => alloc TrieNode_new end h)
    as [h1 [nr|e]]; [|done].
  by destruct (Put_loop key nr None Ascii.zero h1) as [h2 [st|e]].
Qed.

(** [Put] writes no node of the store it was called on, and what it
    returns shares every subtree off the path of [key]. *)
Lemma Trie_Put_spec t key h2 r :
  Trie_Put t key value h0 = (h2, r) →
  heap_le h0 h2 ∧
  ∀ t', r = Ok t' →
    ∀ q a, String.prefix q key = false → node_at h0 t q = Some a → node_at h2 t' q = Some a.
Proof.
  rewrite Trie_Put_unfold. intros Hrun.
  set (mk := match root_ t with
             | Some r => Clone r
             | None => alloc TrieNode_new
             end) in Hrun.
  assert (mk h0 = (h0, Fault Dangling) ∨
          ∃ nn, mk h0 = (h0 ++ [nn], Ok (length h0)) ∧
                ∀ r0 o, root_ t = Some r0 → h0 !! r0 = Some o →
                        children_ nn = children_ o) as [Hmk | (nn & Hmk & Hnn)].
  { subst mk. destruct (root_ t) as [r0|] eqn:Hr.
    - destruct (h0 !! r0) as [o|] eqn:Ho.
      + right. exists (clone_node o). split; [by apply Clone_Some|].
        intros r0' o' [= <-] Ho'. rewrite children_clone_node. congruence.
      + left. by apply Clone_None.
    - right. exists TrieNode_new. split; [done|]. by intros. }
  { rewrite (bind_Fault _ _ _ _ _ Hmk) in Hrun. inversion Hrun; subst.
    split; [apply heap_le_refl|done]. }
  rewrite (bind_Ok _ _ _ _ _ Hmk) in Hrun.
  destruct (Put_tail value key (length h0) None Ascii.zero (h0 ++ [nn])) as [h2' r'] eqn:Htail.
  assert (heap_le h0 (h0 ++ [nn])) as Hle1 by (intros a n Ha; by apply lookup_app_l_Some).
  destruct (Put_tail_spec key (length h0) None Ascii.zero (h0 ++ [nn]) nn h2' r')
    as [Hw HS]; try done.
  { apply lookup_alloc. }
  assert (heap_le h0 h2') as Hle2.
  { apply (fresh_writes_heap_le h0 (h0 ++ [nn]) h2' (length h0) None Ascii.zero); done. }
  destruct r' as [[]|e].
  - rewrite (bind_Ok _ _ _ _ _ Htail) in Hrun. inversion Hrun; subst. clear Hrun.
    split; [done|]. intros t' [= <-] q a Hq Hat.
    destruct (HS eq_refl) as (e & _ & -> & Hsh).
    unfold node_at in *. simpl.
    destruct (root_ t) as [r0|] eqn:Hr; [|done]. simpl in Hat.
    destruct q as [|c rq]; [by destruct key|].
    simpl in Hat. destruct (h0 !! r0) as [o|] eqn:Ho; [|done]. simpl in Hat.
    destruct (children_ o !! c) as [a1|] eqn:Hc; [|done]. simpl in Hat.
    eapply Hsh; [done| |done]. by rewrite (Hnn r0 o).
  - rewrite (bind_Fault _ _ _ _ _ Htail) in Hrun. inversion Hrun; subst. done.
Qed.
End put_facts.

(** [Put] followed by [Get]: the value is read back when the key held no
    value of another type. *)
Section put_get.
Variable h0 : heap.
Variable value : Value.
Hypothesis Hcl0 : heap_closed h0.

Lemma clone_node_value n :
  is_value_node_ (clone_node n) = true →
  ∃ u, value_ n = Some u ∧ value_ (clone_node n) = Some u.
Proof. unfold clone_node. destruct (value_ n) as [u|]; [eauto|done]. Qed.

Lemma Put_finish_terminal parent pre pc (h1 : heap) p h2 :
  h1 !! parent = Some p → pre_ok h0 h1 parent pre pc →
  no_other_type h0 (type_of value) p "" →
  Put_finish value parent pre pc h1 = (h2, Ok tt) →
  ∃ et nt, walk h2 (walk_start pre parent) (walk_key pre pc "") = Some et ∧
           h2 !! et = Some nt ∧ is_value_node_ nt = true ∧ value_ nt = Some value.
Proof.
  intros Hp Hpre Hok Hrun.
  assert (parent < length h1) as Hlt by (by eapply lookup_lt_Some).
  unfold Put_finish in Hrun. rewrite (bind_Ok _ _ _ _ _ (load_Some _ _ _ Hp)) in Hrun.
  destruct (is_value_node_ p) eqn:Hv; simpl in Hrun.
  - destruct (Hok Hv) as (u & Hu & HT).
    unfold cast_value in Hrun. rewrite Hu in Hrun.
    destruct (decide (type_of u = type_of value)); [|done].
    inversion Hrun; subst. clear Hrun.
    exists parent, (set_value p value).
    split; [|split; [by apply list_lookup_insert_eq|done]].
    destruct pre as [x|]; [|done]. destruct Hpre as (_ & Hxp & px & Hx & Hpx).
    simpl. rewrite list_lookup_insert_ne by done. rewrite Hx. simpl. by rewrite Hpx.
  - rewrite (bind_Ok _ _ _ _ _ (alloc_run _ _)) in Hrun.
    destruct pre as [x|]; [|done]. destruct Hpre as (_ & Hxp & px & Hx & Hpx).
    assert (x < length h1) as Hxlt by (by eapply lookup_lt_Some).
    rewrite (set_child_Some _ _ _ _ px) in Hrun by (by apply lookup_app_l_Some).
    inversion Hrun; subst. clear Hrun.
    exists (length h1), (TrieNodeWithValue (children_ p) value).
    split; [|split; [|done]].
    + simpl. rewrite list_lookup_insert_eq by (rewrite length_app; simpl; lia).
      simpl. by rewrite lookup_insert_eq.
    + rewrite list_lookup_insert_ne by lia. apply lookup_alloc.
Qed.

Lemma Put_tail_terminal key : ∀ parent pre pc (h1 : heap) p h2,
  heap_le h0 h1 → length h0 ≤ parent → h1 !! parent = Some p →
  pre_ok h0 h1 parent pre pc →
  (∀ c b, children_ p !! c = Some b → b < length h0) →
  no_other_type h0 (type_of value) p key →
  Put_tail value key parent pre pc h1 = (h2, Ok tt) →
  ∃ et nt, walk h2 (walk_start pre parent) (walk_key pre pc key) = Some et ∧
           h2 !! et = Some nt ∧ is_value_node_ nt = true ∧ value_ nt = Some value.
Proof.
  induction key as [|ch rest IH]; intros parent pre pc h1 p h2 Hle Hlo Hp Hpre Hold Hok Hrun.
  { rewrite Put_tail_nil in Hrun. by eapply Put_finish_terminal. }
  rewrite Put_tail_cons in Hrun.
  assert (parent < length h1) as Hlt by (by eapply lookup_lt_Some).
  rewrite (bind_Ok _ _ _ _ _ (load_Some _ _ _ Hp)) in Hrun.
  set (mk := match children_ p !! ch with
             | Some c => Clone c
             | None => alloc TrieNode_new
             end) in Hrun.
  assert (∃ nn, mk h1 = (h1 ++ [nn], Ok (length h1)) ∧
                (∀ c b, children_ nn !! c = Some b → b < length h0) ∧
                no_other_type h0 (type_of value) nn rest) as (nn & Hmk & Hnnold & Hnnok).
  { subst mk. destruct (children_ p !! ch) as [c|] eqn:Hc.
    - destruct (lookup_lt_is_Some_2 h0 c (Hold _ _ Hc)) as [o Ho].
      exists (clone_node o). split; [apply Clone_Some; by apply Hle|]. split.
      + intros c' b. rewrite children_clone_node. by apply (Hcl0 c o).
      + simpl in Hok. destruct rest as [|c2 r2]; simpl.
        * intros Hv. destruct (clone_node_value o Hv) as (u & Hu & Hu').
          exists u. split; [done|]. by apply (Hok c c o u).
        * intros a2 a n u Hc2 Hw Hn Hu. apply (Hok c a n u); try done.
          simpl. rewrite Ho. simpl. rewrite children_clone_node in Hc2.
          by rewrite Hc2.
    - exists TrieNode_new. split; [done|]. split.
      + intros c b. simpl. by rewrite lookup_empty.
      + destruct rest as [|c2 r2]; simpl; [done|]. intros a2 a n u. by rewrite lookup_empty. }
  rewrite (bind_Ok _ _ _ _ _ Hmk) in Hrun.
  set (p1 := set_children p (<[ch := length h1]> (children_ p))).
  assert ((h1 ++ [nn]) !! parent = Some p) as Hp1 by (by apply lookup_app_l_Some).
  rewrite (bind_Ok _ _ _ _ _ (set_child_Some _ _ ch (length h1) _ Hp1)) in Hrun.
  fold p1 in Hrun. set (h1' := <[parent := p1]> (h1 ++ [nn])) in Hrun.
  assert (length h1' = S (length h1)) as Hlen'
    by (subst h1'; rewrite length_insert, length_app; simpl; lia).
  assert (h1' !! parent = Some p1) as Hp1'.
  { subst h1'. apply list_lookup_insert_eq. rewrite length_app. simpl. lia. }
  assert (h1' !! length h1 = Some nn) as Hnn'.
  { subst h1'. rewrite list_lookup_insert_ne by lia. apply lookup_alloc. }
  assert (pre_ok h0 h1' (length h1) (Some parent) ch) as Hpre'.
  { simpl. split; [done|]. split; [lia|]. exists p1. split; [done|].
    subst p1. simpl. apply lookup_insert_eq. }
  assert (heap_le h0 h1') as Hle'.
  { apply (fresh_writes_heap_le h0 h1 h1' parent pre pc); try done.
    eapply writes_within_trans; [apply writes_within_alloc|].
    apply writes_within_store. by left. }
  destruct (IH (length h1) (Some parent) ch h1' nn h2) as (et & nt & Hw & Het & Hv & Hval);
    try done; [lia|].
  exists et, nt. split; [|done].
  destruct pre as [x|]; [|done]. destruct Hpre as (Hx0 & Hxp & px & Hx & Hpx).
  assert (x < length h1) as Hxlt by (by eapply lookup_lt_Some).
  destruct (Put_tail_spec h0 value rest (length h1) (Some parent) ch h1' nn h2 (Ok tt))
    as [[_ Hfr] _]; try done; [lia|].
  simpl in *. rewrite Hfr.
  - subst h1'. rewrite list_lookup_insert_ne by done.
    rewrite lookup_app_l by done. rewrite Hx. simpl. rewrite Hpx. simpl. exact Hw.
  - lia.
  - intros [->|[= ->]]; [lia|done].
Qed.

(** [t.Put(k, v).Get<T>(k)] is [v] whenever [Put] returns and the node of
    [t] at [k], if there is one, holds no value of a type other than [T]. *)
Lemma Trie_Put_Get t key h2 t' :
  (∀ r, root_ t = Some r → r < length h0) →
  (∀ a n u, node_at h0 t key = Some a → h0 !! a = Some n → value_ n = Some u →
            type_of u = type_of value) →
  Trie_Put t key value h0 = (h2, Ok t') →
  Trie_Get h2 t' (type_of value) key = Ok (Some value).
Proof.
  intros Hroot Hok. rewrite Trie_Put_unfold. intros Hrun.
  set (mk := match root_ t with
             | Some r => Clone r
             | None => alloc TrieNode_new
             end) in Hrun.
  assert (∃ nn, mk h0 = (h0 ++ [nn], Ok (length h0)) ∧
                (∀ c b, children_ nn !! c = Some b → b < length h0) ∧
                no_other_type h0 (type_of value) nn key) as (nn & Hmk & Hnnold & Hnnok).
  { subst mk. unfold node_at in Hok. destruct (root_ t) as [r|] eqn:Hr.
    - destruct (lookup_lt_is_Some_2 h0 r (Hroot r eq_refl)) as [o Ho].
      exists (clone_node o). split; [by apply Clone_Some|]. split.
      + intros c' b. rewrite children_clone_node. by apply (Hcl0 r o).
      + simpl in Hok. destruct key as [|c2 r2]; simpl.
        * intros Hv. destruct (clone_node_value o Hv) as (u & Hu & Hu').
          exists u. split; [done|]. by apply (Hok r o u).
        * intros a2 a n u Hc2 Hw Hn Hu. apply (Hok a n u); try done.
          simpl. rewrite Ho. simpl. rewrite children_clone_node in Hc2.
          by rewrite Hc2.
    - exists TrieNode_new. split; [done|]. split.
      + intros c b. simpl. by rewrite lookup_empty.
      + destruct key as [|c2 r2]; simpl; [done|]. intros a2 a n u. by rewrite lookup_empty. }
  rewrite (bind_Ok _ _ _ _ _ Hmk) in Hrun.
  destruct (Put_tail value key (length h0) None Ascii.zero (h0 ++ [nn])) as [h2' [[]|e]] eqn:Htail;
    cycle 1.
  { by rewrite (bind_Fault _ _ _ _ _ Htail) in Hrun. }
  rewrite (bind_Ok _ _ _ _ _ Htail) in Hrun. inversion Hrun; subst. clear Hrun.
  destruct (Put_tail_terminal key (length h0) None Ascii.zero (h0 ++ [nn]) nn h2)
    as (et & nt & Hw & Het & Hv & Hval); try done.
  { intros a n Ha. by apply lookup_app_l_Some. }
  { apply lookup_alloc. }
  simpl in Hw. unfold Trie_Get. simpl.
  rewrite (Get_from_walk _ _ _ _ _ Hw), (Get_from_nil _ _ _ _ Het), Hv.
  unfold cast_value. rewrite Hval. by rewrite decide_True.
Qed.
End put_get.

(** [Put] with a key that is not empty runs without a fault on a
    well-formed trie, and leaves a well-formed trie. *)
Section put_runs.
Variable value : Value.

(** The clone of a child, or a new empty node: [it->second->Clone()] or
    [std::make_shared<TrieNode>()]. *)
Lemma wp_clone_or_new (o : option nat) (Q : nat → heap → Prop) (h : heap) :
  heap_closed h →
  (∀ c, o = Some c → c < length h) →
  (∀ nn, (∀ c b, children_ nn !! c = Some b → b < length h) → Q (length h) (h ++ [nn])) →
  wp (match o with Some c => Clone c | None => alloc TrieNode_new end) Q h.
Proof.
  intros Hcl Ho HQ. destruct o as [c|].
  - destruct (lookup_lt_is_Some_2 h c (Ho c eq_refl)) as [n Hn].
    eapply wp_Clone; [done|]. apply HQ. intros c' b.
    rewrite children_clone_node. by apply (Hcl c n).
  - apply wp_alloc. apply HQ. intros c b. simpl. by rewrite lookup_empty.
Qed.

Lemma Put_loop_runs key : ∀ parent pre pc (h : heap),
  heap_closed h → parent < length h →
  wp (Put_loop key parent pre pc)
     (λ st h', heap_closed h' ∧ length h ≤ length h' ∧ st.1.1 < length h' ∧
               match key with
               | EmptyString => st.1.2 = pre
               | String _ _ => ∃ x, st.1.2 = Some x ∧ x < length h'
               end) h.
Proof.
  induction key as [|ch rest IH]; intros parent pre pc h Hcl Hp.
  { apply wp_ret. simpl. eauto. }
  cbn [Put_loop].
  destruct (lookup_lt_is_Some_2 h parent Hp) as [p Hp'].
  apply wp_bind. eapply wp_load; [done|].
  apply wp_bind. apply wp_clone_or_new; [done|intros c; by apply (Hcl parent p)|].
  intros nn Hnn. apply wp_bind.
  eapply wp_set_child; [by apply lookup_app_l_Some|].
  set (h1 := <[parent := _]> (h ++ [nn])).
  assert (length h1 = S (length h)) as Hlen1
    by (subst h1; rewrite length_insert, length_app; simpl; lia).
  assert (heap_closed h1) as Hcl1.
  { subst h1. apply heap_closed_set_child.
    - by apply heap_closed_alloc.
    - by apply lookup_app_l_Some.
    - rewrite length_app. simpl. lia. }
  eapply wp_mono; [apply (IH (length h) (Some parent) ch h1 Hcl1); lia|].
  intros [[parent' pre'] pc'] h2 (Hcl2 & Hlen2 & Hp2 & Hpre2). simpl in *.
  repeat split; [done|lia|done|].
  destruct rest; [|done]. exists parent. split; [done|lia].
Qed.

Lemma Put_finish_runs parent x pc (h : heap) :
  heap_closed h → parent < length h → x < length h →
  wp (Put_finish value parent (Some x) pc)
     (λ _ h', heap_closed h' ∧ length h ≤ length h') h.
Proof.
  intros Hcl Hp Hx. unfold Put_finish.
  destruct (lookup_lt_is_Some_2 h parent Hp) as [p Hp'].
  destruct (lookup_lt_is_Some_2 h x Hx) as [px Hx'].
  apply wp_bind. eapply wp_load; [done|].
  destruct (is_value_node_ p); simpl.
  - destruct (cast_value (type_of value) p).
    + apply wp_store. rewrite length_insert. split; [|done].
      apply heap_closed_store; [done|]. intros c b. simpl. by apply (Hcl parent p).
    + by apply wp_ret.
  - apply wp_bind. apply wp_alloc.
    eapply wp_set_child; [by apply lookup_app_l_Some|].
    rewrite length_insert, length_app. simpl. split; [|lia].
    apply heap_closed_set_child.
    + apply heap_closed_alloc; [done|]. intros c b. simpl. by apply (Hcl parent p).
    + by apply lookup_app_l_Some.
    + rewrite length_app. simpl. lia.
Qed.

Lemma Trie_Put_runs t key (h : heap) :
  Trie_wf h t → key ≠ EmptyString →
  wp (Trie_Put t key value) (λ t' h', Trie_wf h' t' ∧ length h ≤ length h') h.
Proof.
  intros [Hcl Hroot] Hkey. unfold Trie_Put.
  apply wp_bind. apply wp_clone_or_new; [done..|].
  intros nn Hnn. apply wp_bind.
  eapply wp_mono.
  { apply (Put_loop_runs key (length h) None Ascii.zero (h ++ [nn])).
    - by apply heap_closed_alloc.
    - rewrite length_app. simpl. lia. }
  intros [[parent' pre'] pc'] h2 (Hcl2 & Hlen2 & Hp2 & Hpre2). simpl in *.
  rewrite length_app in Hlen2. simpl in Hlen2.
  destruct key; [done|]. destruct Hpre2 as (x & -> & Hx).
  apply wp_bind. eapply wp_mono; [by apply Put_finish_runs|].
  intros [] h3 [Hcl3 Hlen3]. apply wp_ret.
  split; [|lia]. split; [done|]. simpl. intros r [= <-]. lia.
Qed.

(** The same without the predicate transformer. *)
Lemma Trie_Put_total t key (h : heap) :
  Trie_wf h t → key ≠ EmptyString →
  ∃ t', (Trie_Put t key value h).2 = Ok t' ∧ Trie_wf (Trie_Put t key value h).1 t'.
Proof.
  intros Hwf Hkey.
  destruct (Trie_Put_runs t key h Hwf Hkey) as (t' & h' & Hrun & Hwf' & _).
  exists t'. by rewrite Hrun.
Qed.
End put_runs.

(** ** [Trie::Remove] *)

Section remove_facts.
Variable h0 : heap.
Variable this : Trie.
Variable new_root : addr.

Lemma Remove_tail_nil parent path h :
  Remove_tail this new_root "" parent path h = Remove_finish this new_root parent path h.
Proof. reflexivity. Qed.

Lemma Remove_tail_cons ch rest parent path h :
  Remove_tail this new_root (String ch rest) parent path h =
  (p ← load parent;
   match children_ p !! ch with
   | None => mret this
   | Some c =>
       new_node ← Clone c;
       set_child parent ch new_node;;
       Remove_tail this new_root rest new_node ((parent, ch) :: path)
   end) h.
Proof.
  unfold Remove_tail. cbn [Remove_loop]. unfold mbind, M_bind.
  destruct (load parent h) as [h1 [p|e]]; [|done].
  destruct (children_ p !! ch) as [c|]; [|done].
  destruct (Clone c h1) as [h2 [nn|e]]; [|done].
  by destruct (set_child parent ch nn h2) as [h3 [[]|e]].
Qed.

(** The pruning loop stops at once, without a write, when the child under
    the back of the path is not dead. *)
Lemma Remove_prune_stops h path :
  match path with
  | [] => True
  | (x, pc) :: _ =>
      ∃ px c cn, h !! x = Some px ∧ children_ px !! pc = Some c ∧
                 h !! c = Some cn ∧ dead cn = false
  end →
  Remove_prune path h = (h, Ok tt).
Proof.
  destruct path as [|[x pc] path']; [done|].
  intros (px & c & cn & Hx & Hc & Hcn & Hd). cbn [Remove_prune].
  rewrite (bind_Ok _ _ _ _ _ (load_Some _ _ _ Hx)), Hc.
  by rewrite (bind_Ok _ _ _ _ _ (load_Some _ _ _ Hcn)), Hd.
Qed.

Lemma dead_with_child n ch c : children_ n !! ch = Some c → dead n = false.
Proof.
  intros H. unfold dead. rewrite bool_decide_eq_false_2; [apply andb_false_r|].
  intros Hm. by rewrite Hm, lookup_empty in H.
Qed.

Lemma Remove_finish_spec parent path h1 p h2 r :
  heap_le h0 h1 → length h0 ≤ parent → h1 !! parent = Some p →
  path_ok h0 h1 parent path →
  Remove_finish this new_root parent path h1 = (h2, r) →
  writes_within (λ a, a = parent ∨ Some a = (path_back path).1) h1 h2 ∧
  ∀ t', r = Ok t' →
    t' = this ∨
    ∃ e, length h0 ≤ e ∧ replaced_by h1 h2 new_root path t' e ∧
         shares h0 h2 e "" (children_ p).
Proof.
  intros Hle Hlo Hp [Hpre Hgr] Hrun.
  assert (parent < length h1) as Hlt by (by eapply lookup_lt_Some).
  unfold Remove_finish in Hrun.
  rewrite (bind_Ok _ _ _ _ _ (load_Some _ _ _ Hp)) in Hrun.
  destruct (is_value_node_ p) eqn:Hv; cycle 1.
  { inversion Hrun; subst. split; [apply writes_within_refl|].
    intros t' [= <-]. by left. }
  rewrite (bind_Ok _ _ _ _ _ (store_run _ _ _)) in Hrun.
  set (pf := set_is_value_node p false) in Hrun.
  set (hA := <[parent := pf]> h1) in Hrun.
  assert (length hA = length h1) as HlenA by (subst hA; apply length_insert).
  assert (hA !! parent = Some pf) as HpA by (subst hA; by apply list_lookup_insert_eq).
  assert (∀ a, a ≠ parent → hA !! a = h1 !! a) as HneA
    by (intros a Ha; subst hA; by apply list_lookup_insert_ne).
  assert (writes_within (λ a, a = parent ∨ Some a = (path_back path).1) h1 hA) as HwA
    by (apply writes_within_store; by left).
  assert (heap_le h0 hA) as HleA.
  { by apply (fresh_writes_heap_le h0 h1 hA parent (path_back path).1 (path_back path).2). }
  destruct (bool_decide (children_ p = ∅)) eqn:Hemp.
  - (* a leaf: the back of the path is dropped before pruning *)
    destruct path as [|[x pc] path'].
    { inversion Hrun; subst. done. }
    simpl in Hpre. destruct Hpre as (Hx0 & Hxp & px & Hx & Hpx).
    assert (Remove_prune path' hA = (hA, Ok tt)) as Hprune.
    { apply Remove_prune_stops.
      destruct path' as [|[y pc'] path'']; [done|].
      destruct Hgr as (Hyp & Hyx & py & Hy & Hpy).
      exists py, x, px. rewrite !HneA by done.
      repeat split; try done. by eapply dead_with_child. }
    rewrite (bind_Ok _ _ _ _ _ Hprune) in Hrun.
    inversion Hrun; subst. clear Hrun. split; [done|].
    intros t' [= <-]. right. exists parent. split; [done|]. split.
    + simpl. split; [done|]. exists px. split; [done|].
      rewrite set_children_id by done. by rewrite HneA.
    + change (children_ p) with (children_ pf). by apply shares_same.
  - (* inner node: a plain node with the same children replaces it *)
    rewrite (bind_Ok _ _ _ _ _ (alloc_run _ _)) in Hrun.
    set (np := TrieNode_of (children_ p)) in Hrun.
    assert (dead np = false) as Hnp by (unfold dead; simpl; by rewrite Hemp).
    assert (writes_within (λ a, a = parent ∨ Some a = (path_back path).1) h1 (hA ++ [np]))
      as HwB by (eapply writes_within_trans; [done|apply writes_within_alloc]).
    destruct path as [|[x pc] path'].
    + simpl in Hrun. inversion Hrun; subst. clear Hrun. split; [done|].
      intros t' [= <-]. right. exists (length hA). split; [lia|]. split; [done|].
      change (children_ p) with (children_ np). apply shares_same.
      * by apply (fresh_writes_heap_le h0 h1 _ parent None Ascii.zero).
      * apply lookup_alloc.
    + simpl in Hpre. destruct Hpre as (Hx0 & Hxp & px & Hx & Hpx).
      assert (x < length h1) as Hxlt by (by eapply lookup_lt_Some).
      assert ((hA ++ [np]) !! x = Some px) as HxB.
      { apply lookup_app_l_Some. by rewrite HneA. }
      rewrite (bind_Ok _ _ _ _ _ (set_child_Some _ _ pc (length hA) _ HxB)) in Hrun.
      set (px' := set_children px (<[pc := length hA]> (children_ px))) in Hrun.
      set (hC := <[x := px']> (hA ++ [np])) in Hrun.
      assert (hC !! x = Some px') as HxC.
      { subst hC. apply list_lookup_insert_eq. rewrite length_app. simpl. lia. }
      assert (hC !! length hA = Some np) as HnC.
      { subst hC. rewrite list_lookup_insert_ne by lia. apply lookup_alloc. }
      assert (Remove_prune ((x, pc) :: path') hC = (hC, Ok tt)) as Hprune.
      { apply Remove_prune_stops.
        exists px', (length hA), np. repeat split; try done.
        subst px'. simpl. apply lookup_insert_eq. }
      rewrite (bind_Ok _ _ _ _ _ Hprune) in Hrun.
      inversion Hrun; subst. clear Hrun.
      assert (writes_within (λ a, a = parent ∨ Some a = Some x) h1 hC) as HwC.
      { eapply writes_within_trans; [exact HwB|].
        apply writes_within_store. by right. }
      split; [done|]. intros t' [= <-]. right. exists (length hA).
      split; [lia|]. split.
      * simpl. split; [done|]. by exists px.
      * change (children_ p) with (children_ np). apply shares_same; [|done].
        apply (fresh_writes_heap_le h0 h1 hC parent (Some x) pc); try done.
        simpl. eauto.
Qed.

Lemma Remove_tail_spec key : ∀ parent path h1 p h2 r,
  heap_le h0 h1 → length h0 ≤ parent → h1 !! parent = Some p →
  path_ok h0 h1 parent path →
  (path = [] → parent = new_root) →
  Remove_tail this new_root key parent path h1 = (h2, r) →
  writes_within (λ a, a = parent ∨ Some a = (path_back path).1) h1 h2 ∧
  ∀ t', r = Ok t' →
    t' = this ∨
    ∃ e, length h0 ≤ e ∧ replaced_by h1 h2 new_root path t' e ∧
         shares h0 h2 e key (children_ p).
Proof.
  induction key as [|ch rest IH]; intros parent path h1 p h2 r Hle Hlo Hp Hpath Hnil Hrun.
  { rewrite Remove_tail_nil in Hrun. by eapply Remove_finish_spec. }
  rewrite Remove_tail_cons in Hrun.
  assert (parent < length h1) as Hlt by (by eapply lookup_lt_Some).
  rewrite (bind_Ok _ _ _ _ _ (load_Some _ _ _ Hp)) in Hrun.
  destruct (children_ p !! ch) as [c|] eqn:Hc; cycle 1.
  { inversion Hrun; subst. split; [apply writes_within_refl|].
    intros t' [= <-]. by left. }
  destruct (h1 !! c) as [o|] eqn:Ho; cycle 1.
  { rewrite (bind_Fault _ _ _ _ _ (Clone_None _ _ Ho)) in Hrun. inversion Hrun; subst.
    split; [apply writes_within_refl|done]. }
  rewrite (bind_Ok _ _ _ _ _ (Clone_Some _ _ _ Ho)) in Hrun.
  set (nn := clone_node o) in Hrun.
  set (p1 := set_children p (<[ch := length h1]> (children_ p))).
  assert ((h1 ++ [nn]) !! parent = Some p) as Hp1 by (by apply lookup_app_l_Some).
  rewrite (bind_Ok _ _ _ _ _ (set_child_Some _ _ ch (length h1) _ Hp1)) in Hrun.
  fold p1 in Hrun. set (h1' := <[parent := p1]> (h1 ++ [nn])) in Hrun.
  assert (h1' !! parent = Some p1) as Hp1'.
  { subst h1'. apply list_lookup_insert_eq. rewrite length_app. simpl. lia. }
  assert (∀ a, a < length h1 → a ≠ parent → h1' !! a = h1 !! a) as Hne'.
  { intros a Ha Hap. subst h1'. rewrite list_lookup_insert_ne by done.
    by apply lookup_app_l. }
  destruct Hpath as [Hpre Hgr].
  assert (writes_within (λ a, a = parent ∨ Some a = (path_back path).1) h1 h1') as Hw1.
  { eapply writes_within_trans; [apply writes_within_alloc|].
    apply writes_within_store. by left. }
  assert (heap_le h0 h1') as Hle'
    by (by apply (fresh_writes_heap_le h0 h1 h1' parent (path_back path).1 (path_back path).2)).
  destruct (IH (length h1) ((parent, ch) :: path) h1' nn h2 r) as [Hw HS]; try done.
  { lia. }
  { subst h1'. rewrite list_lookup_insert_ne by lia. apply lookup_alloc. }
  { split.
    - simpl. split; [done|]. split; [lia|]. exists p1. split; [done|].
      subst p1. simpl. apply lookup_insert_eq.
    - destruct path as [|[y pc'] path']; [done|].
      simpl in Hpre. destruct Hpre as (Hy0 & Hyp & py & Hy & Hpy).
      assert (y < length h1) by (by eapply lookup_lt_Some).
      split; [lia|]. split; [done|]. exists py. by rewrite Hne'. }
  simpl in Hw.
  assert (writes_within (λ a, a = parent ∨ Some a = (path_back path).1) h1 h2) as Hw2.
  { eapply writes_within_seq; [exact Hw1|exact Hw|].
    intros a Ha [->|[= ->]]; [lia|by left]. }
  split; [done|]. intros t' Hr.
  destruct (HS t' Hr) as [->|(e' & He' & (-> & px & Hpx1 & Hpx2) & Hsh)]; [by left|].
  assert (px = p1) as -> by congruence.
  right. exists parent. split; [done|]. split.
  - destruct path as [|[x pc] path'].
    + simpl. by rewrite Hnil.
    + simpl. split; [done|].
      simpl in Hpre. destruct Hpre as (Hx0 & Hxp & px & Hx & Hpx).
      assert (x < length h1) as Hxlt by (by eapply lookup_lt_Some).
      exists px. split; [done|]. rewrite set_children_id by done.
      destruct Hw as [_ Hw]. rewrite Hw.
      * by rewrite Hne'.
      * subst h1'. rewrite length_insert, length_app. simpl. lia.
      * intros [->|[= ->]]; [lia|done].
  - eapply shares_cons;
      [by apply (fresh_writes_heap_le h0 h1 h2 parent (path_back path).1 (path_back path).2)
      |exact Hpx2| |].
    + subst p1. simpl. apply insert_insert_eq.
    + intros a1 o' Ha1 Ho'. apply Hle in Ho'.
      assert (o' = o) as -> by congruence.
      rewrite <- (children_clone_node o). exact Hsh.
Qed.

Lemma Trie_Remove_unfold key h :
  Trie_Remove this key h =
  match root_ this with
  | None => (h, Ok this)
  | Some r => (nr ← Clone r; Remove_tail this nr key nr []) h
  end.
Proof. unfold Trie_Remove, Remove_tail. by destruct (root_ this). Qed.
End remove_facts.

Section remove_top.
Variable h0 : heap.

(** [Remove] writes no node of the store it was called on, and what it
    returns shares every subtree off the path of [key]. *)
Lemma Trie_Remove_spec t key h2 r :
  Trie_Remove t key h0 = (h2, r) →
  heap_le h0 h2 ∧
  ∀ t', r = Ok t' →
    ∀ q a, String.prefix q key = false → node_at h0 t q = Some a → node_at h2 t' q = Some a.
Proof.
  rewrite Trie_Remove_unfold. intros Hrun.
  destruct (root_ t) as [r0|] eqn:Hr; cycle 1.
  { inversion Hrun; subst. split; [apply heap_le_refl|]. by intros t' [= <-]. }
  destruct (h0 !! r0) as [o|] eqn:Ho; cycle 1.
  { rewrite (bind_Fault _ _ _ _ _ (Clone_None _ _ Ho)) in Hrun. inversion Hrun; subst.
    split; [apply heap_le_refl|done]. }
  rewrite (bind_Ok _ _ _ _ _ (Clone_Some _ _ _ Ho)) in Hrun.
  set (nn := clone_node o) in Hrun.
  assert (heap_le h0 (h0 ++ [nn])) as Hle1 by (intros a n Ha; by apply lookup_app_l_Some).
  destruct (Remove_tail_spec h0 t (length h0) key (length h0) [] (h0 ++ [nn]) nn h2 r)
    as [Hw HS]; try done.
  { apply lookup_alloc. }
  assert (heap_le h0 h2) as Hle2.
  { apply (fresh_writes_heap_le h0 (h0 ++ [nn]) h2 (length h0) None Ascii.zero); done. }
  split; [done|]. intros t' Hr' q a Hq Hat.
  destruct (HS t' Hr') as [->|(e & _ & -> & Hsh)].
  - unfold node_at in *. rewrite Hr in *. simpl in *. by eapply walk_heap_le.
  - unfold node_at in *. rewrite Hr in Hat. simpl in *.
    destruct q as [|c rq]; [by destruct key|].
    simpl in Hat. rewrite Ho in Hat. simpl in Hat.
    destruct (children_ o !! c) as [a1|] eqn:Hc; [|done]. simpl in Hat.
    eapply Hsh; [done| |done]. subst nn. by rewrite children_clone_node.
Qed.
End remove_top.


(** [Remove] with a key that is not empty runs without a fault on a
    well-formed trie, and leaves a well-formed trie. *)
Section remove_runs.
Implicit Types (h : heap) (path : list (nat * ascii)).

Lemma path_lt_mono h h' path :
  length h ≤ length h' →
  Forall (λ e, e.1 < length h) path → Forall (λ e, e.1 < length h') path.
Proof. intros Hlen H. eapply Forall_impl; [done|]. intros e ?. simpl in *. lia. Qed.

Lemma Remove_prune_runs path : ∀ h,
  heap_closed h → Forall (λ e, e.1 < length h) path →
  wp (Remove_prune path) (λ _ h', heap_closed h' ∧ length h' = length h) h.
Proof.
  induction path as [|[x ch] path IH]; intros h Hcl Hpath.
  { by apply wp_ret. }
  apply Forall_cons in Hpath as [Hx Hpath]. simpl in Hx.
  destruct (lookup_lt_is_Some_2 h x Hx) as [n Hn].
  cbn [Remove_prune]. apply wp_bind. eapply wp_load; [done|].
  destruct (children_ n !! ch) as [c|] eqn:Hc; [|by apply IH].
  destruct (lookup_lt_is_Some_2 h c (Hcl _ _ _ _ Hn Hc)) as [child Hchild].
  apply wp_bind. eapply wp_load; [done|].
  destruct (dead child); [|by apply wp_ret].
  apply wp_bind. eapply wp_erase_child; [done|].
  eapply wp_mono.
  - apply IH.
    + apply heap_closed_store; [done|]. intros c' b. simpl.
      rewrite lookup_delete. case_decide; [done|]. by apply (Hcl x n).
    + by rewrite length_insert.
  - intros [] h' [Hcl' Hlen']. by rewrite length_insert in Hlen'.
Qed.

Lemma Remove_loop_runs key : ∀ parent path h,
  heap_closed h → parent < length h → Forall (λ e, e.1 < length h) path →
  wp (Remove_loop key parent path)
     (λ ex h',
        heap_closed h' ∧ length h ≤ length h' ∧
        match ex with
        | ReturnThis => True
        | FallThrough (parent', path') =>
            parent' < length h' ∧ Forall (λ e, e.1 < length h') path' ∧
            (path ≠ [] ∨ key ≠ EmptyString → path' ≠ [])
        end) h.
Proof.
  induction key as [|ch rest IH]; intros parent path h Hcl Hp Hpath.
  { apply wp_ret. repeat split; [done..|]. by intros [?|?]. }
  cbn [Remove_loop].
  destruct (lookup_lt_is_Some_2 h parent Hp) as [p Hp'].
  apply wp_bind. eapply wp_load; [done|].
  destruct (children_ p !! ch) as [c|] eqn:Hc; [|by apply wp_ret].
  destruct (lookup_lt_is_Some_2 h c (Hcl _ _ _ _ Hp' Hc)) as [o Ho].
  apply wp_bind. eapply wp_Clone; [done|].
  apply wp_bind. eapply wp_set_child; [by apply lookup_app_l_Some|].
  set (h1 := <[parent := _]> (h ++ [clone_node o])).
  assert (length h1 = S (length h)) as Hlen1
    by (subst h1; rewrite length_insert, length_app; simpl; lia).
  assert (heap_closed h1) as Hcl1.
  { subst h1. apply heap_closed_set_child.
    - apply heap_closed_alloc; [done|]. intros c' b.
      rewrite children_clone_node. by apply (Hcl c o).
    - by apply lookup_app_l_Some.
    - rewrite length_app. simpl. lia. }
  eapply wp_mono.
  { apply (IH (length h) ((parent, ch) :: path) h1 Hcl1); [lia|].
    apply Forall_cons. split; [simpl; lia|].
    eapply path_lt_mono; [|done]. lia. }
  intros [|[parent' path']] h2 (Hcl2 & Hlen2 & Hex); [split; [done|lia]|].
  destruct Hex as (Hp2 & Hpath2 & Hne).
  repeat split; [done|lia|done..|]. intros _. apply Hne. by left.
Qed.

Lemma Remove_finish_runs this new_root parent path h :
  heap_closed h → parent < length h → new_root < length h →
  Forall (λ e, e.1 < length h) path → path ≠ [] →
  wp (Remove_finish this new_root parent path)
     (λ t' h', heap_closed h' ∧ length h ≤ length h' ∧
               (t' = this ∨ t' = mkTrie (Some new_root))) h.
Proof.
  intros Hcl Hp Hnr Hpath Hne. unfold Remove_finish.
  destruct path as [|[x pc] path']; [done|]. clear Hne.
  pose proof Hpath as Hpath0.
  apply Forall_cons in Hpath as [Hx Hpath]. simpl in Hx.
  destruct (lookup_lt_is_Some_2 h parent Hp) as [p Hp'].
  apply wp_bind. eapply wp_load; [done|].
  destruct (is_value_node_ p); [|apply wp_ret; auto].
  apply wp_bind. apply wp_store.
  set (hA := <[parent := set_is_value_node p false]> h).
  assert (length hA = length h) as HlenA by (subst hA; apply length_insert).
  assert (heap_closed hA) as HclA.
  { subst hA. apply heap_closed_store; [done|]. intros c b. simpl. by apply (Hcl parent p). }
  destruct (bool_decide (children_ p = ∅)).
  - apply wp_bind. eapply wp_mono.
    { apply Remove_prune_runs; [done|]. by rewrite HlenA. }
    intros [] h' [Hcl' Hlen']. apply wp_ret. repeat split; [done|lia|by right].
  - apply wp_bind. apply wp_alloc.
    assert (heap_closed (hA ++ [TrieNode_of (children_ p)])) as HclB.
    { apply heap_closed_alloc; [done|]. intros c b. simpl. rewrite HlenA.
      by apply (Hcl parent p). }
    destruct (lookup_lt_is_Some_2 (hA ++ [TrieNode_of (children_ p)]) x) as [px Hpx].
    { rewrite length_app. simpl. lia. }
    apply wp_bind. eapply wp_set_child; [done|].
    set (hC := <[x := _]> (hA ++ [TrieNode_of (children_ p)])).
    assert (length hC = S (length h)) as HlenC
      by (subst hC; rewrite length_insert, length_app; simpl; lia).
    apply wp_bind. eapply wp_mono.
    { apply Remove_prune_runs.
      - subst hC. apply heap_closed_set_child; [done..|].
        rewrite length_app. simpl. lia.
      - eapply path_lt_mono; [|exact Hpath0]. lia. }
    intros [] h' [Hcl' Hlen']. apply wp_ret. repeat split; [done|lia|by right].
Qed.

Lemma Trie_Remove_runs t key h :
  Trie_wf h t → key ≠ EmptyString →
  wp (Trie_Remove t key) (λ t' h', Trie_wf h' t' ∧ length h ≤ length h') h.
Proof.
  intros [Hcl Hroot] Hkey. unfold Trie_Remove.
  destruct (root_ t) as [r|] eqn:Hr; cycle 1.
  { apply wp_ret. repeat split; [done| |done]. intros r. by rewrite Hr. }
  destruct (lookup_lt_is_Some_2 h r (Hroot r eq_refl)) as [o Ho].
  apply wp_bind. eapply wp_Clone; [done|].
  assert (heap_closed (h ++ [clone_node o])) as Hcl1.
  { apply heap_closed_alloc; [done|]. intros c b.
    rewrite children_clone_node. by apply (Hcl r o). }
  assert (∀ h', length h ≤ length h' → heap_closed h' → Trie_wf h' t) as Hthis.
  { intros h' Hlen Hcl'. split; [done|]. intros r'. rewrite Hr. intros [= <-].
    apply lookup_lt_Some in Ho. lia. }
  apply wp_bind. eapply wp_mono.
  { apply (Remove_loop_runs key (length h) [] (h ++ [clone_node o]) Hcl1); [|done].
    rewrite length_app. simpl. lia. }
  rewrite length_app. simpl.
  intros [|[parent' path']] h2 (Hcl2 & Hlen2 & Hex).
  { apply wp_ret. split; [apply Hthis; [lia|done]|lia]. }
  destruct Hex as (Hp2 & Hpath2 & Hne).
  eapply wp_mono.
  { apply (Remove_finish_runs t (length h) parent' path' h2); try done; [lia|].
    apply Hne. by right. }
  intros t' h3 (Hcl3 & Hlen3 & [->| ->]).
  - split; [apply Hthis; [lia|done]|lia].
  - split; [|lia]. split; [done|]. simpl. intros r' [= <-]. lia.
Qed.

Lemma Trie_Remove_total t key h :
  Trie_wf h t → key ≠ EmptyString →
  ∃ t', (Trie_Remove t key h).2 = Ok t' ∧ Trie_wf (Trie_Remove t key h).1 t'.
Proof.
  intros Hwf Hkey.
  destruct (Trie_Remove_runs t key h Hwf Hkey) as (t' & h' & Hrun & Hwf' & _).
  exists t'. by rewrite Hrun.
Qed.

End remove_runs.

Section well_formed.
Implicit Types (h : heap).



End well_formed.

(** What [Remove] returns, and what it leaves at the key. *)
Section remove_result.
Variable h0 : heap.
Variable this : Trie.
Variable new_root : nat.
Hypothesis Hcl0 : heap_closed h0.

Lemma terminal_clone_walk key : ∀ r o,
  h0 !! r = Some o →
  terminal_clone h0 (clone_node o) key =
  (a ← walk h0 r key; n ← h0 !! a; Some (clone_node n)).
Proof.
  induction key as [|ch rest IH]; intros r o Ho; simpl.
  { by rewrite Ho. }
  rewrite Ho. simpl. rewrite children_clone_node.
  destruct (children_ o !! ch) as [a1|]; simpl; [|done].
  destruct (h0 !! a1) as [o'|] eqn:Ho'; simpl; [by apply IH|].
  destruct rest; simpl; by rewrite Ho'.
Qed.

Lemma is_value_clone_node n : is_value_node_ (clone_node n) = bool_decide (is_Some (value_ n)).
Proof. unfold clone_node. by destruct (value_ n). Qed.

(** The code after the loop, when the path is not empty: it returns, with
    the receiver if the flag of [parent] is off and with the new root
    otherwise, and then [cleared pt] stands under the back of the path. *)
Lemma Remove_finish_result parent x pc path' (h1 : heap) pt :
  h1 !! parent = Some pt →
  path_ok h0 h1 parent ((x, pc) :: path') →
  ∃ h2,
    Remove_finish this new_root parent ((x, pc) :: path') h1 =
      (h2, Ok (if is_value_node_ pt then mkTrie (Some new_root) else this)) ∧
    (is_value_node_ pt = true →
     ∃ et, walk h2 x (String pc "") = Some et ∧ h2 !! et = Some (cleared pt)).
Proof.
  intros Hp [Hpre Hgr].
  assert (parent < length h1) as Hlt by (by eapply lookup_lt_Some).
  simpl in Hpre. destruct Hpre as (Hx0 & Hxp & px & Hx & Hpx).
  assert (x < length h1) as Hxlt by (by eapply lookup_lt_Some).
  unfold Remove_finish. rewrite (bind_Ok _ _ _ _ _ (load_Some _ _ _ Hp)).
  destruct (is_value_node_ pt) eqn:Hv; [|by exists h1].
  rewrite (bind_Ok _ _ _ _ _ (store_run _ _ _)).
  set (pf := set_is_value_node pt false).
  set (hA := <[parent := pf]> h1).
  assert (length hA = length h1) as HlenA by (subst hA; apply length_insert).
  assert (hA !! parent = Some pf) as HpA by (subst hA; by apply list_lookup_insert_eq).
  assert (∀ a, a ≠ parent → hA !! a = h1 !! a) as HneA
    by (intros a Ha; subst hA; by apply list_lookup_insert_ne).
  unfold cleared. destruct (bool_decide (children_ pt = ∅)) eqn:Hemp.
  - assert (Remove_prune path' hA = (hA, Ok tt)) as Hprune.
    { apply Remove_prune_stops.
      destruct path' as [|[y pc'] path'']; [done|].
      destruct Hgr as (Hyp & Hyx & py & Hy & Hpy).
      exists py, x, px. rewrite !HneA by done.
      repeat split; try done. by eapply dead_with_child. }
    rewrite (bind_Ok _ _ _ _ _ Hprune). exists hA. split; [done|]. intros _.
    exists parent. split; [|done]. simpl. rewrite HneA by done. rewrite Hx. simpl.
    by rewrite Hpx.
  - rewrite (bind_Ok _ _ _ _ _ (alloc_run _ _)).
    set (np := TrieNode_of (children_ pt)).
    assert (dead np = false) as Hnp by (unfold dead; simpl; by rewrite Hemp).
    assert ((hA ++ [np]) !! x = Some px) as HxB.
    { apply lookup_app_l_Some. by rewrite HneA. }
    rewrite (bind_Ok _ _ _ _ _ (set_child_Some _ _ pc (length hA) _ HxB)).
    set (px' := set_children px (<[pc := length hA]> (children_ px))).
    set (hC := <[x := px']> (hA ++ [np])).
    assert (hC !! x = Some px') as HxC.
    { subst hC. apply list_lookup_insert_eq. rewrite length_app. simpl. lia. }
    assert (hC !! length hA = Some np) as HnC.
    { subst hC. rewrite list_lookup_insert_ne by lia. apply lookup_alloc. }
    assert (Remove_prune ((x, pc) :: path') hC = (hC, Ok tt)) as Hprune.
    { apply Remove_prune_stops.
      exists px', (length hA), np. repeat split; try done.
      subst px'. simpl. apply lookup_insert_eq. }
    rewrite (bind_Ok _ _ _ _ _ Hprune). exists hC. split; [done|]. intros _.
    exists (length hA). split; [|done]. simpl. rewrite HxC. simpl.
    by rewrite lookup_insert_eq.
Qed.

(** [Remove] from inside its loop: it returns; with the receiver when the
    path of [key] is missing or ends on a node whose clone has the flag off,
    with the new root otherwise; and in the latter case the key leads to the
    cleared node. *)
Lemma Remove_tail_result key : ∀ parent path (h1 : heap) p,
  heap_le h0 h1 → length h0 ≤ parent → h1 !! parent = Some p →
  path_ok h0 h1 parent path →
  (path = [] → parent = new_root) →
  (∀ c b, children_ p !! c = Some b → b < length h0) →
  (key = EmptyString → path ≠ []) →
  ∃ h2,
    Remove_tail this new_root key parent path h1 =
      (h2, Ok (match terminal_clone h0 p key with
               | Some pt => if is_value_node_ pt then mkTrie (Some new_root) else this
               | None => this
               end)) ∧
    ∀ pt, terminal_clone h0 p key = Some pt → is_value_node_ pt = true →
      ∃ et, walk h2 (walk_start (path_back path).1 parent)
                    (walk_key (path_back path).1 (path_back path).2 key) = Some et ∧
            h2 !! et = Some (cleared pt).
Proof.
  induction key as [|ch rest IH]; intros parent path h1 p Hle Hlo Hp Hpath Hnil Hold Hkey.
  { rewrite Remove_tail_nil. destruct path as [|[x pc] path']; [by destruct Hkey|].
    destruct (Remove_finish_result parent x pc path' h1 p Hp Hpath) as (h2 & Hrun & Ht).
    exists h2. split; [done|]. simpl. by intros pt [= <-]. }
  assert (parent < length h1) as Hlt by (by eapply lookup_lt_Some).
  rewrite Remove_tail_cons.
  rewrite (bind_Ok _ _ _ _ _ (load_Some _ _ _ Hp)). simpl.
  destruct (children_ p !! ch) as [c|] eqn:Hc; simpl; [|by exists h1].
  destruct (lookup_lt_is_Some_2 h0 c (Hold _ _ Hc)) as [o Ho]. rewrite Ho. simpl.
  rewrite (bind_Ok _ _ _ _ _ (Clone_Some _ _ _ (Hle _ _ Ho))).
  set (nn := clone_node o).
  set (p1 := set_children p (<[ch := length h1]> (children_ p))).
  assert ((h1 ++ [nn]) !! parent = Some p) as Hp1 by (by apply lookup_app_l_Some).
  rewrite (bind_Ok _ _ _ _ _ (set_child_Some _ _ ch (length h1) _ Hp1)).
  fold p1. set (h1' := <[parent := p1]> (h1 ++ [nn])).
  assert (h1' !! parent = Some p1) as Hp1'.
  { subst h1'. apply list_lookup_insert_eq. rewrite length_app. simpl. lia. }
  assert (∀ a, a < length h1 → a ≠ parent → h1' !! a = h1 !! a) as Hne'.
  { intros a Ha Hap. subst h1'. rewrite list_lookup_insert_ne by done.
    by apply lookup_app_l. }
  assert (h1' !! length h1 = Some nn) as Hnn'.
  { subst h1'. rewrite list_lookup_insert_ne by lia. apply lookup_alloc. }
  assert (length h1' = S (length h1)) as Hlen'
    by (subst h1'; rewrite length_insert, length_app; simpl; lia).
  assert (heap_le h0 h1') as Hle'.
  { intros a n Ha. assert (a < length h0) by (by eapply lookup_lt_Some).
    rewrite Hne' by lia. by apply Hle. }
  assert (path_ok h0 h1' (length h1) ((parent, ch) :: path)) as Hpath'.
  { destruct Hpath as [Hpre Hgr]. split.
    - simpl. split; [done|]. split; [lia|]. exists p1. split; [done|].
      subst p1. simpl. apply lookup_insert_eq.
    - destruct path as [|[y pc'] path']; [done|].
      simpl in Hpre. destruct Hpre as (Hy0 & Hyp & py & Hy & Hpy).
      assert (y < length h1) by (by eapply lookup_lt_Some).
      split; [lia|]. split; [done|]. exists py. by rewrite Hne'. }
  destruct (IH (length h1) ((parent, ch) :: path) h1' nn) as (h2 & Hrun & Ht); try done.
  { lia. }
  { intros c' b. subst nn. rewrite children_clone_node. by apply (Hcl0 c o). }
  exists h2. split; [done|]. intros pt Hpt Hv.
  destruct (Ht pt Hpt Hv) as (et & Hw & Het). exists et. split; [|done].
  simpl in Hw. destruct path as [|[x pc] path']; [done|].
  destruct Hpath as [(Hx0 & Hxp & px & Hx & Hpx) _].
  assert (x < length h1) as Hxlt by (by eapply lookup_lt_Some).
  destruct (Remove_tail_spec h0 this new_root rest (length h1) ((parent, ch) :: (x, pc) :: path')
              h1' nn h2 _ Hle' ltac:(lia) Hnn' Hpath' ltac:(done) Hrun) as [[_ Hfr] _].
  simpl in *. rewrite Hfr.
  - rewrite Hne' by done. rewrite Hx. simpl. rewrite Hpx. simpl. exact Hw.
  - lia.
  - intros [->|[= ->]]; [lia|done].
Qed.
End remove_result.

Section remove_top_result.
Implicit Types (h : heap) (t : Trie).

(** [Remove] with a key that is not empty, on a well-formed trie: it returns
    the receiver unless the trie holds a [TrieNodeWithValue] object at the
    key (its flag is not looked at), and otherwise a trie with a new root in
    which the key leads to the cleared node. *)
Lemma Trie_Remove_result t key h :
  Trie_wf h t → key ≠ EmptyString →
  ∃ h',
    Trie_Remove t key h =
      (h', Ok (match value_object_at h t key with
               | Some _ => mkTrie (Some (length h))
               | None => t
               end)) ∧
    ∀ a n u,
      node_at h t key = Some a → h !! a = Some n → value_ n = Some u →
      ∃ et, node_at h' (mkTrie (Some (length h))) key = Some et ∧
            h' !! et = Some (cleared (clone_node n)).
Proof.
  intros [Hcl Hroot] Hkey. rewrite Trie_Remove_unfold.
  unfold value_object_at, node_at.
  destruct (root_ t) as [r|] eqn:Hr; simpl; [|by exists h].
  destruct (lookup_lt_is_Some_2 h r (Hroot r eq_refl)) as [o Ho].
  rewrite (bind_Ok _ _ _ _ _ (Clone_Some _ _ _ Ho)).
  destruct (Remove_tail_result h t (length h) Hcl key (length h) [] (h ++ [clone_node o])
              (clone_node o)) as (h2 & Hrun & Ht); try done.
  { intros a n Ha. by apply lookup_app_l_Some. }
  { apply lookup_alloc. }
  { intros c b. rewrite children_clone_node. by apply (Hcl r o). }
  rewrite (terminal_clone_walk h key r o Ho) in Hrun, Ht.
  exists h2. split.
  - rewrite Hrun. do 2 f_equal.
    destruct (walk h r key) as [a|]; simpl; [|done].
    destruct (h !! a) as [n|]; simpl; [|done].
    rewrite is_value_clone_node. by destruct (value_ n).
  - intros a n u Hw Hn Hu. apply (Ht (clone_node n)).
    + by rewrite Hw; simpl; rewrite Hn.
    + rewrite is_value_clone_node, Hu. by apply bool_decide_eq_true_2.
Qed.

(** After a [Remove] that found the key, [Get] finds nothing there. *)
Lemma Trie_Remove_Get t key h T a n u :
  Trie_wf h t → key ≠ EmptyString →
  node_at h t key = Some a → h !! a = Some n → value_ n = Some u →
  ∃ t', (Trie_Remove t key h).2 = Ok t' ∧
        Trie_Get (Trie_Remove t key h).1 t' T key = Ok None.
Proof.
  intros Hwf Hkey Hat Hn Hu.
  destruct (Trie_Remove_result t key h Hwf Hkey) as (h' & Hrun & Hterm).
  destruct (Hterm a n u Hat Hn Hu) as (et & Het & Hnt).
  assert (value_object_at h t key = Some u) as Hobj
    by (unfold value_object_at; rewrite Hat; simpl; by rewrite Hn).
  rewrite Hobj in Hrun. rewrite Hrun. simpl. eexists. split; [done|].
  unfold Trie_Get. simpl. unfold node_at in Het. simpl in Het.
  rewrite (Get_from_walk _ _ _ _ _ Het), (Get_from_nil _ _ _ _ Hnt).
  unfold cleared. by destruct (bool_decide _).
Qed.

(** The cleared leaf stays in the trie, and it is still a
    [TrieNodeWithValue] object: a second [Remove] of the same key finds it
    and returns yet another root. *)
Lemma Trie_Remove_leaf_twice t key h a n u :
  Trie_wf h t → key ≠ EmptyString →
  node_at h t key = Some a → h !! a = Some n → value_ n = Some u → children_ n = ∅ →
  ∃ t1 t2,
    (Trie_Remove t key h).2 = Ok t1 ∧
    node_at (Trie_Remove t key h).1 t1 key ≠ None ∧
    (Trie_Remove t1 key (Trie_Remove t key h).1).2 = Ok t2 ∧
    Trie_eqb t2 t1 = false.
Proof.
  intros Hwf Hkey Hat Hn Hu Hleaf.
  destruct (Trie_Remove_result t key h Hwf Hkey) as (h1 & Hrun & Hterm).
  destruct (Hterm a n u Hat Hn Hu) as (et & Het & Hnt).
  assert (value_object_at h t key = Some u) as Hobj
    by (unfold value_object_at; rewrite Hat; simpl; by rewrite Hn).
  rewrite Hobj in Hrun.
  destruct (Trie_Remove_total t key h Hwf Hkey) as (t1 & Ht1 & Hwf1).
  rewrite Hrun in Ht1, Hwf1. simpl in Ht1, Hwf1. injection Ht1 as <-.
  destruct (Trie_Remove_result _ key h1 Hwf1 Hkey) as (h2 & Hrun2 & _).
  assert (value_object_at h1 (mkTrie (Some (length h))) key = Some u) as Hobj1.
  { unfold value_object_at. rewrite Het. simpl. rewrite Hnt. simpl.
    unfold cleared. rewrite children_clone_node, Hleaf.
    rewrite bool_decide_eq_true_2 by done. simpl. unfold clone_node. by rewrite Hu. }
  rewrite Hobj1 in Hrun2.
  exists (mkTrie (Some (length h))), (mkTrie (Some (length h1))).
  rewrite Hrun. simpl. rewrite Hrun2. simpl.
  split; [done|]. split; [by rewrite Het|]. split; [done|].
  unfold Trie_eqb. simpl. apply bool_decide_eq_false_2. intros [= Hlen].
  destruct Hwf1 as [_ Hroot1]. specialize (Hroot1 (length h) eq_refl). lia.
Qed.
End remove_top_result.

(** ** The store *)

Section store_facts.
Implicit Types (s : TrieStore) (h : heap) (st : heap * TrieStore).

Lemma push_back_prefix s t : snapshots_ s `prefix_of` snapshots_ (push_back s t).
Proof. simpl. by apply prefix_app_r. Qed.

Lemma TrieStore_Put_prefix s key value h :
  snapshots_ s `prefix_of` snapshots_ (TrieStore_Put s key value h).1.2.
Proof.
  unfold TrieStore_Put. destruct (last (snapshots_ s)); [|done].
  destruct (Trie_Put _ _ _ _) as [h' [t'|e]]; [|done]. apply push_back_prefix.
Qed.

Lemma TrieStore_Remove_prefix s key h :
  snapshots_ s `prefix_of` snapshots_ (TrieStore_Remove s key h).1.2.
Proof.
  unfold TrieStore_Remove. destruct (last (snapshots_ s)) as [cur|]; [|done].
  destruct (Trie_Remove _ _ _) as [h' [t'|e]]; [|done]. simpl.
  destruct (negb (Trie_eqb t' cur)); [apply push_back_prefix|done].
Qed.

Lemma step_op_prefix st op : snapshots_ st.2 `prefix_of` snapshots_ (step_op st op).2.
Proof.
  destruct op; simpl; try done.
  - apply TrieStore_Put_prefix.
  - apply TrieStore_Remove_prefix.
Qed.

Lemma foldl_step_op_prefix ops : ∀ st,
  snapshots_ st.2 `prefix_of` snapshots_ (foldl step_op st ops).2.
Proof.
  induction ops as [|op ops IH]; intros st; simpl; [done|].
  etrans; [apply step_op_prefix|apply IH].
Qed.

(** No operation ever assigns [version_]. *)
Lemma step_op_version st op : get_version (step_op st op).2 = get_version st.2.
Proof.
  destruct op; simpl; try done.
  - unfold TrieStore_Put. destruct (last (snapshots_ st.2)); [|done].
    by destruct (Trie_Put _ _ _ _) as [h' [t'|e]].
  - unfold TrieStore_Remove. destruct (last (snapshots_ st.2)) as [cur|]; [|done].
    destruct (Trie_Remove _ _ _) as [h' [t'|e]]; [|done]. simpl.
    by destruct (negb (Trie_eqb t' cur)).
Qed.

Lemma run_ops_version ops : get_version (run_ops ops).2 = 0%Z.
Proof.
  unfold run_ops. induction ops as [|op ops IH] using rev_ind; [done|].
  rewrite foldl_app. simpl. by rewrite step_op_version.
Qed.

(** [TrieStore::Remove] appends exactly when the trie it computed is not the
    newest snapshot, by identity of roots. *)
Lemma TrieStore_Remove_appends s key h cur h' t' :
  last (snapshots_ s) = Some cur →
  Trie_Remove cur key h = (h', Ok t') →
  snapshots_ (TrieStore_Remove s key h).1.2 =
  if Trie_eqb t' cur then snapshots_ s else snapshots_ s ++ [t'].
Proof.
  intros Hl Hr. unfold TrieStore_Remove. rewrite Hl, Hr. simpl.
  by destruct (Trie_eqb t' cur).
Qed.
End store_facts.

(** ** The properties of the specification *)

(** C1 — The code at the failing input.  On a new store, [Put("cat", 1)]
    appends the second snapshot, so the newest index is 1, yet it returns 0
    and [get_version()] still answers 0: [version_] is read but never
    written.  The same holds after any sequence of operations. *)
Theorem TrieStore_Put_version_stale :
  (TrieStore_Put TrieStore_new "cat" (V_uint32 1) []).2 = Ok 0%Z ∧
  get_version (TrieStore_Put TrieStore_new "cat" (V_uint32 1) []).1.2 = 0%Z ∧
  length (snapshots_ (TrieStore_Put TrieStore_new "cat" (V_uint32 1) []).1.2) = 2 ∧
  (∀ ops, get_version (run_ops ops).2 = 0%Z).
Proof.
  split; [by vm_compute|]. split; [by vm_compute|]. split; [by vm_compute|].
  apply run_ops_version.
Qed.

(** C2 — The code at the failing input.  After [Put<uint32_t>("a", 1)],
    [Put<uint64_t>("a", 2)] does not overwrite: [Get<uint64_t>("a")] finds
    nothing and [Get<uint32_t>("a")] still finds 1. *)
Theorem Put_other_type_not_read_back :
  (client_put_other_type []).2 = Ok (None, Some (V_uint32 1)).
Proof. by vm_compute. Qed.

(** C3 — The code at the failing input.  [Put] with the empty key on the
    empty trie, in any store and with any value, dereferences the null [pre]
    and returns no trie. *)
Theorem Put_empty_key_faults (h : heap) (v : Value) :
  (Trie_Put Trie_empty "" v h).2 = Fault NullDeref.
Proof.
  unfold Trie_Put. simpl.
  rewrite (bind_Ok _ _ _ _ _ (alloc_run _ _)).
  unfold Put_loop. rewrite (bind_Ok _ _ _ (h ++ [TrieNode_new]) _ eq_refl). simpl.
  unfold Put_finish.
  by rewrite (bind_Fault _ _ _ ((h ++ [TrieNode_new]) ++ [TrieNodeWithValue ∅ v]) NullDeref);
    [|rewrite (bind_Ok _ _ _ _ _ (load_Some _ _ _ (lookup_alloc _ _)))].
Qed.

(** C4 — The code at the failing input.  After [Put("a", 1)] and
    [Remove("a")], the trie still holds a node at ["a"]: the clone of the
    removed leaf, flag off and childless, never detached from the root.  In
    scenario 6, after the two removals the trie still holds a node at ["a"]
    with a child ['b'], and the cleared leaf at ["ab"]. *)
Theorem Remove_leaf_keeps_dead_node :
  (client_remove_leaf []).2 =
    Ok (mkTrie (Some 3), Some (mkTrieNode ∅ false (Some (V_uint32 1))), None) ∧
  (client_remove_chain []).2 =
    Ok (mkTrie (Some 7), mkTrie (Some 10),
        Some (mkTrieNode {["b"%char := 9]} false None),
        Some (mkTrieNode ∅ false (Some (V_uint32 2)))).
Proof. split; by vm_compute. Qed.

(** C5 — Whatever [t.Put(k, v)] and [t.Remove(k)] do, the store they leave
    starts with the store they were called on: no node that existed before is
    written or freed.  Hence every [Get] on [t] answers as before.  And when
    the call returns a trie [t'], every node that [t] reaches along a key [q]
    that is not a prefix of [k] is reached by [t'] along [q] at the same
    address: the subtrees off the path are shared, not copied. *)
Theorem Put_Remove_frame_and_sharing (h : heap) (t : Trie) (k : string) (v : Value) :
  (h `prefix_of` (Trie_Put t k v h).1 ∧
   (∀ T key res,
      Trie_Get h t T key = Ok res → Trie_Get (Trie_Put t k v h).1 t T key = Ok res) ∧
   (∀ t', (Trie_Put t k v h).2 = Ok t' →
      ∀ q a, String.prefix q k = false →
             node_at h t q = Some a → node_at (Trie_Put t k v h).1 t' q = Some a)) ∧
  (h `prefix_of` (Trie_Remove t k h).1 ∧
   (∀ T key res,
      Trie_Get h t T key = Ok res → Trie_Get (Trie_Remove t k h).1 t T key = Ok res) ∧
   (∀ t', (Trie_Remove t k h).2 = Ok t' →
      ∀ q a, String.prefix q k = false →
             node_at h t q = Some a → node_at (Trie_Remove t k h).1 t' q = Some a)).
Proof.
  split.
  - destruct (Trie_Put t k v h) as [h' r] eqn:Hrun.
    destruct (Trie_Put_spec h v t k h' r Hrun) as [Hle Hsh]. simpl.
    split; [by apply heap_le_prefix|]. split; [|done].
    intros T key res. by apply Get_from_heap_le.
  - destruct (Trie_Remove t k h) as [h' r] eqn:Hrun.
    destruct (Trie_Remove_spec h t k h' r Hrun) as [Hle Hsh]. simpl.
    split; [by apply heap_le_prefix|]. split; [|done].
    intros T key res. by apply Get_from_heap_le.
Qed.

(** On the trie with the keys ["ab"] and ["ac"]: after [Put("ab", 7)] the
    receiver still reads 1 at ["ab"], after [Remove("ab")] as well, and both
    results hold the very node of ["ac"] (address 7) that the receiver
    holds. *)
Lemma Put_Remove_frame_and_sharing_witness :
  Trie_Get (Trie_Put two_keys_trie "ab" (V_uint32 7) two_keys.1).1 two_keys_trie T_uint32 "ab"
    = Ok (Some (V_uint32 1)) ∧
  node_at (Trie_Put two_keys_trie "ab" (V_uint32 7) two_keys.1).1 (mkTrie (Some 8)) "ac"
    = Some 7 ∧
  Trie_Get (Trie_Remove two_keys_trie "ab" two_keys.1).1 two_keys_trie T_uint32 "ab"
    = Ok (Some (V_uint32 1)) ∧
  node_at (Trie_Remove two_keys_trie "ab" two_keys.1).1 (mkTrie (Some 8)) "ac"
    = Some 7.
Proof.
  destruct (Put_Remove_frame_and_sharing two_keys.1 two_keys_trie "ab" (V_uint32 7))
    as [(_ & HgetP & HshP) (_ & HgetR & HshR)].
  split; [|split; [|split]].
  - apply HgetP. vm_compute. reflexivity.
  - apply HshP; vm_compute; reflexivity.
  - apply HgetR. vm_compute. reflexivity.
  - apply HshR; vm_compute; reflexivity.
Defined.

(** C6 — The code at the failing input.  The trie left by [Put("a", 1)] and
    [Remove("a")] holds at ["a"] a node whose value flag is off, and [Get]
    finds nothing there; yet [Remove("a")] on it returns a trie with another
    root.  In the store, the second [Remove("a")] therefore appends a fourth
    snapshot. *)
Theorem Remove_valueless_terminal_new_root :
  (client_remove_absent []).2 =
    Ok (mkTrie (Some 3), Some (mkTrieNode ∅ false (Some (V_uint32 1))), None,
        mkTrie (Some 5)) ∧
  Trie_eqb (mkTrie (Some 5)) (mkTrie (Some 3)) = false ∧
  snapshots_ (run_ops [OpPut "a" (V_uint32 1); OpRemove "a"; OpRemove "a"]).2 =
    [Trie_empty; mkTrie (Some 0); mkTrie (Some 3); mkTrie (Some 5)].
Proof. repeat split; by vm_compute. Qed.

(** C7 — The snapshot sequence starts as the one-element sequence holding the
    empty trie; every operation ([Get], [Put], [Remove], [get_version]) leaves
    the old sequence as a prefix of the new one, so entries are only added at
    the end; and after any sequence of operations the sequence still starts
    with the empty trie at index 0, so it is never empty. *)
Theorem snapshots_append_only :
  snapshots_ TrieStore_new = [Trie_empty] ∧
  (∀ (st : heap * TrieStore) (op : store_op),
     snapshots_ st.2 `prefix_of` snapshots_ (step_op st op).2) ∧
  (∀ ops : list store_op,
     [Trie_empty] `prefix_of` snapshots_ (run_ops ops).2 ∧
     snapshots_ (run_ops ops).2 !! 0 = Some Trie_empty).
Proof.
  split; [done|]. split; [apply step_op_prefix|].
  intros ops.
  assert ([Trie_empty] `prefix_of` snapshots_ (run_ops ops).2) as Hp
    by apply (foldl_step_op_prefix ops ([], TrieStore_new)).
  split; [done|]. destruct Hp as [k ->]. done.
Qed.

(** C8 — The code at the failing input.  With [t] the trie left by
    [Put("a", 1)], [t.Remove("a")] has root 3 and [t.Remove("a").Remove("a")]
    has root 5: the two are not equal by reference. *)
Theorem Remove_twice_not_reference_equal :
  (client_remove_twice []).2 = Ok (mkTrie (Some 3), mkTrie (Some 5)) ∧
  Trie_eqb (mkTrie (Some 5)) (mkTrie (Some 3)) = false.
Proof. split; by vm_compute. Qed.

(** C9 — [Trie::Get<T>] gives the absent result [Ok None], and no fault, in
    each of the four cases: the root is null; after some prefix of the key the
    node reached has no child for the next character; the node reached by the
    whole key has its value flag off; that node holds a value whose type is
    not [T].  The last case gives the very result of a missing key. *)
Theorem Get_absent (h : heap) (t : Trie) (T : TypeId) (key : string) :
  (root_ t = None → Trie_Get h t T key = Ok None) ∧
  (∀ pfx c rest a n,
     key = (pfx ++ String c rest)%string →
     node_at h t pfx = Some a → h !! a = Some n → children_ n !! c = None →
     Trie_Get h t T key = Ok None) ∧
  (∀ a n,
     node_at h t key = Some a → h !! a = Some n → is_value_node_ n = false →
     Trie_Get h t T key = Ok None) ∧
  (∀ a n v,
     node_at h t key = Some a → h !! a = Some n → value_ n = Some v → type_of v ≠ T →
     Trie_Get h t T key = Ok None).
Proof.
  unfold Trie_Get, node_at. repeat split.
  - intros ->. apply Get_from_null.
  - intros pfx c rest a n -> Hat Hn Hc.
    destruct (root_ t) as [r|]; [|done]. simpl in Hat.
    rewrite (Get_from_app h T pfx r _ a Hat). by eapply Get_from_no_child.
  - intros a n Hat Hn Hv.
    destruct (root_ t) as [r|]; [|done]. simpl in Hat.
    rewrite (Get_from_walk h T r key a Hat), (Get_from_nil h T a n Hn). by rewrite Hv.
  - intros a n v Hat Hn Hv HT.
    destruct (root_ t) as [r|]; [|done]. simpl in Hat.
    rewrite (Get_from_walk h T r key a Hat), (Get_from_nil h T a n Hn).
    unfold cast_value. rewrite Hv.
    destruct (decide (type_of v = T)); [done|]. by destruct (is_value_node_ n).
Qed.

(** The four cases on the trie with the keys ["ab"] and ["ac"] (both
    [uint32_t]): the empty trie, the key ["ax"], the key ["a"], and the key
    ["ab"] read as a [std::string]. *)
Lemma Get_absent_witness :
  Trie_Get two_keys.1 Trie_empty T_uint32 "ab" = Ok None ∧
  Trie_Get two_keys.1 two_keys_trie T_uint32 "ax" = Ok None ∧
  Trie_Get two_keys.1 two_keys_trie T_uint32 "a" = Ok None ∧
  Trie_Get two_keys.1 two_keys_trie T_string "ab" = Ok None.
Proof.
  split; [|split; [|split]].
  - by apply (Get_absent two_keys.1 Trie_empty T_uint32 "ab").
  - apply (Get_absent two_keys.1 two_keys_trie T_uint32 "ax")
      with (pfx := "a"%string) (c := "x"%char) (rest := ""%string) (a := 5)
           (n := mkTrieNode (<["c"%char := 7]> {["b"%char := 3]}) false None);
      vm_compute; reflexivity.
  - apply (Get_absent two_keys.1 two_keys_trie T_uint32 "a")
      with (a := 5) (n := mkTrieNode (<["c"%char := 7]> {["b"%char := 3]}) false None);
      vm_compute; reflexivity.
  - apply (Get_absent two_keys.1 two_keys_trie T_string "ab")
      with (a := 3) (n := mkTrieNode ∅ true (Some (V_uint32 1))) (v := V_uint32 1);
      vm_compute; (reflexivity || discriminate).
Defined.

(** ** Well-formed stores *)

Section wf_checks.
Implicit Types (h : heap) (t : Trie) (s : TrieStore).

Lemma children_below_sound len n c b :
  children_below len n = true → children_ n !! c = Some b → b < len.
Proof.
  unfold children_below. rewrite forallb_forall. intros Hall Hc.
  specialize (Hall (c, b)). simpl in Hall. apply Nat.ltb_lt, Hall.
  apply list_elem_of_In. by apply elem_of_map_to_list.
Qed.

Lemma heap_closedb_sound h : heap_closedb h = true → heap_closed h.
Proof.
  unfold heap_closedb. rewrite forallb_forall. intros Hall a n c b Ha Hc.
  eapply children_below_sound; [|done]. apply Hall, list_elem_of_In.
  by eapply list_elem_of_lookup_2.
Qed.

Lemma root_below_sound len t r : root_below len t = true → root_ t = Some r → r < len.
Proof. unfold root_below. intros H Hr. rewrite Hr in H. by apply Nat.ltb_lt. Qed.

Lemma Trie_wfb_sound h t : Trie_wfb h t = true → Trie_wf h t.
Proof.
  unfold Trie_wfb. intros [Hc Hr]%andb_true_iff. split.
  - by apply heap_closedb_sound.
  - intros r. by apply root_below_sound.
Qed.

Lemma Store_wfb_sound h s : Store_wfb h s = true → Store_wf h s.
Proof.
  unfold Store_wfb. intros [Hc Hs]%andb_true_iff.
  apply heap_closedb_sound in Hc. split; [done|].
  destruct (snapshots_ s) as [|t0 l] eqn:Hl; [done|]. split; [done|].
  rewrite forallb_forall in Hs. apply Forall_forall. intros t Ht.
  split; [done|]. intros r. apply root_below_sound, Hs. by apply list_elem_of_In.
Qed.
End wf_checks.

(** [Put] and [Remove] keep the node store closed whatever the key and
    whatever the outcome, and what they return is well formed. *)
Section wf_preserved.
Implicit Types (h : heap) (t : Trie).

Lemma clone_or_new_run (o : option nat) h :
  heap_closed h → (∀ c, o = Some c → c < length h) →
  ∃ nn, match o with Some c => Clone c | None => alloc TrieNode_new end h
          = (h ++ [nn], Ok (length h)) ∧
        heap_closed (h ++ [nn]) ∧
        (∀ c n, o = Some c → h !! c = Some n → nn = clone_node n) ∧
        (o = None → nn = TrieNode_new).
Proof.
  intros Hcl Ho. destruct o as [c|].
  - destruct (lookup_lt_is_Some_2 h c (Ho c eq_refl)) as [n Hn].
    exists (clone_node n). split; [by apply Clone_Some|]. split; [|split; [|done]].
    + apply heap_closed_alloc; [done|]. intros c' b.
      rewrite children_clone_node. by apply (Hcl c n).
    + intros c' n' [= <-] Hn'. congruence.
  - exists TrieNode_new. split; [done|]. split; [|done].
    apply heap_closed_alloc; [done|]. intros c b. simpl. by rewrite lookup_empty.
Qed.

Lemma Put_finish_root_run v parent h nn :
  h !! parent = Some nn →
  Put_finish v parent None Ascii.zero h =
  if is_value_node_ nn then
    match cast_value (type_of v) nn with
    | Some _ => (<[parent := set_value nn v]> h, Ok tt)
    | None => (h, Ok tt)
    end
  else (h ++ [TrieNodeWithValue (children_ nn) v], Fault NullDeref).
Proof.
  intros Hn. unfold Put_finish. rewrite (bind_Ok _ _ _ _ _ (load_Some _ _ _ Hn)).
  destruct (is_value_node_ nn); simpl; [by destruct (cast_value _ _)|done].
Qed.

Lemma Trie_Put_wf t key v h :
  Trie_wf h t →
  heap_closed (Trie_Put t key v h).1 ∧
  length h < length (Trie_Put t key v h).1 ∧
  (∀ t', (Trie_Put t key v h).2 = Ok t' →
         t' = mkTrie (Some (length h)) ∧ Trie_wf (Trie_Put t key v h).1 t').
Proof.
  intros Hwf. destruct key as [|ch rest].
  - destruct Hwf as [Hcl Hroot].
    destruct (clone_or_new_run (root_ t) h Hcl Hroot) as (nn & Hmk & Hcl1 & _).
    assert (∀ c b, children_ nn !! c = Some b → b < length (h ++ [nn])) as Hnn
      by (intros c b; apply (Hcl1 (length h) nn), lookup_alloc).
    pose proof (Put_finish_root_run v (length h) (h ++ [nn]) nn (lookup_alloc h nn)) as Hfin.
    assert (Trie_Put t "" v h =
            match Put_finish v (length h) None Ascii.zero (h ++ [nn]) with
            | (h2, Ok _) => (h2, Ok (mkTrie (Some (length h))))
            | (h2, Fault e) => (h2, Fault e)
            end) as ->.
    { unfold Trie_Put. rewrite (bind_Ok _ _ _ _ _ Hmk). cbn [Put_loop].
      rewrite (bind_Ok _ _ _ (h ++ [nn]) _ eq_refl). cbn [fst snd].
      unfold mbind at 1. unfold M_bind.
      by destruct (Put_finish v (length h) None Ascii.zero (h ++ [nn])) as [h2 [[]|e]]. }
    rewrite Hfin. clear Hfin.
    assert (length (h ++ [nn]) = S (length h)) as Hlen1 by (rewrite length_app; simpl; lia).
    destruct (is_value_node_ nn).
    + assert (∀ h2, heap_closed h2 → length h2 = S (length h) →
                heap_closed h2 ∧ length h < length h2 ∧
                ∀ t', Ok (mkTrie (Some (length h))) = Ok t' →
                      t' = mkTrie (Some (length h)) ∧ Trie_wf h2 t') as Hgoal.
      { intros h2 Hcl2 Hlen2. split; [done|]. split; [lia|].
        intros t' [= <-]. split; [done|]. split; [done|]. simpl. intros r [= <-]. lia. }
      destruct (cast_value (type_of v) nn); simpl; apply Hgoal; try done.
      * apply heap_closed_store; [done|]. intros c b. simpl. apply Hnn.
      * by rewrite length_insert.
    + simpl. rewrite length_app, Hlen1. simpl. split; [|split; [lia|done]].
      apply heap_closed_alloc; [done|]. intros c b. simpl. apply Hnn.
  - destruct (Trie_Put_runs v t (String ch rest) h Hwf ltac:(done))
      as (t' & h' & Hrun & Hwf' & Hlen).
    rewrite Hrun. simpl. destruct Hwf' as [Hcl' Hroot'].
    assert (t' = mkTrie (Some (length h))) as ->.
    { destruct Hwf as [Hcl Hroot].
      destruct (clone_or_new_run (root_ t) h Hcl Hroot) as (nn & Hmk & _).
      rewrite Trie_Put_unfold in Hrun. rewrite (bind_Ok _ _ _ _ _ Hmk) in Hrun.
      destruct (Put_tail v (String ch rest) (length h) None Ascii.zero (h ++ [nn]))
        as [h2 [[]|e]] eqn:Htail.
      - rewrite (bind_Ok _ _ _ _ _ Htail) in Hrun. by inversion Hrun.
      - by rewrite (bind_Fault _ _ _ _ _ Htail) in Hrun. }
    split; [done|]. split; [apply (Hroot' (length h) eq_refl)|].
    intros t' [= <-]. done.
Qed.
Lemma Remove_finish_root_run this new_root parent h nn :
  h !! parent = Some nn →
  Remove_finish this new_root parent [] h =
  if is_value_node_ nn then
    if bool_decide (children_ nn = ∅) then
      (<[parent := set_is_value_node nn false]> h, Fault EmptyPopBack)
    else
      (<[parent := set_is_value_node nn false]> h ++ [TrieNode_of (children_ nn)],
       Ok (mkTrie (Some (length h))))
  else (h, Ok this).
Proof.
  intros Hn. unfold Remove_finish. rewrite (bind_Ok _ _ _ _ _ (load_Some _ _ _ Hn)).
  destruct (is_value_node_ nn); [|done].
  rewrite (bind_Ok _ _ _ _ _ (store_run _ _ _)).
  destruct (bool_decide (children_ nn = ∅)); [done|].
  rewrite (bind_Ok _ _ _ _ _ (alloc_run _ _)). by rewrite length_insert.
Qed.

Lemma Trie_Remove_wf t key h :
  Trie_wf h t →
  heap_closed (Trie_Remove t key h).1 ∧
  length h ≤ length (Trie_Remove t key h).1 ∧
  (∀ t', (Trie_Remove t key h).2 = Ok t' → Trie_wf (Trie_Remove t key h).1 t').
Proof.
  intros Hwf. destruct key as [|ch rest]; cycle 1.
  { destruct (Trie_Remove_runs t (String ch rest) h Hwf ltac:(done))
      as (t' & h' & Hrun & Hwf' & Hlen).
    rewrite Hrun. simpl. split; [apply Hwf'|]. split; [done|]. by intros ? [= <-]. }
  destruct Hwf as [Hcl Hroot]. unfold Trie_Remove.
  destruct (root_ t) as [r|] eqn:Hr.
  2:{ simpl. split; [done|]. split; [done|]. intros t' [= <-]. split; [done|].
      intros r. by rewrite Hr. }
  destruct (lookup_lt_is_Some_2 h r (Hroot r eq_refl)) as [o Ho].
  rewrite (bind_Ok _ _ _ _ _ (Clone_Some _ _ _ Ho)). cbn [Remove_loop].
  rewrite (bind_Ok _ _ _ (h ++ [clone_node o]) _ eq_refl).
  rewrite (Remove_finish_root_run t (length h) (length h) _ _ (lookup_alloc h _)).
  set (nn := clone_node o).
  assert (heap_closed (h ++ [nn])) as Hcl1.
  { apply heap_closed_alloc; [done|]. intros c b. subst nn.
    rewrite children_clone_node. by apply (Hcl r o). }
  assert (∀ c b, children_ nn !! c = Some b → b < length (h ++ [nn])) as Hnn
    by (intros c b; apply (Hcl1 (length h) nn), lookup_alloc).
  assert (length (h ++ [nn]) = S (length h)) as Hlen1 by (rewrite length_app; simpl; lia).
  assert (r < length h) as Hrlt by (by eapply lookup_lt_Some).
  destruct (is_value_node_ nn).
  - assert (heap_closed (<[length h := set_is_value_node nn false]> (h ++ [nn]))) as HclA.
    { apply heap_closed_store; [done|]. intros c b. simpl. apply Hnn. }
    destruct (bool_decide (children_ nn = ∅)); simpl.
    + rewrite length_insert. split; [done|]. split; [lia|done].
    + rewrite length_app, length_insert, Hlen1. simpl.
      split; [|split; [lia|]].
      * apply heap_closed_alloc; [done|]. rewrite length_insert. intros c b. simpl. apply Hnn.
      * intros t' [= <-]. split.
        -- apply heap_closed_alloc; [done|]. rewrite length_insert. intros c b. simpl.
           apply Hnn.
        -- simpl. intros r' [= <-]. rewrite length_app, length_insert, Hlen1. simpl. lia.
  - simpl. split; [done|]. split; [lia|]. intros t' [= <-]. split; [done|].
    intros r'. rewrite Hr. intros [= <-]. lia.
Qed.
End wf_preserved.

(** ** [TrieStore::Get] and the store invariant *)

Section store_reads.
Implicit Types (h : heap) (t : Trie) (s : TrieStore) (st : heap * TrieStore).


Lemma Store_wf_last h s : Store_wf h s → ∃ cur, last (snapshots_ s) = Some cur ∧ Trie_wf h cur.
Proof.
  intros (Hcl & Hne & Hall).
  destruct (last (snapshots_ s)) as [cur|] eqn:Hl.
  - exists cur. split; [done|]. rewrite Forall_forall in Hall. apply Hall.
    rewrite last_lookup in Hl. by eapply list_elem_of_lookup_2.
  - by apply last_None in Hl.
Qed.






(** The reading of a snapshot by index. *)
Lemma TrieStore_Get_at h s T key n t :
  snapshots_ s !! n = Some t → Z.of_nat n ≠ size_max →
  TrieStore_Get h s T key (Z.of_nat n) = guard_of t (Trie_Get h t T key).
Proof.
  intros Hn Hmax. unfold TrieStore_Get. cbv zeta.
  assert (n < length (snapshots_ s)) as Hlt by (by eapply lookup_lt_Some).
  destruct (decide (Z.of_nat n = size_max)) as [|_]; [done|].
  destruct (decide (Z.of_nat n >= Z.of_nat (length (snapshots_ s)))%Z) as [|_]; [lia|].
  by rewrite Nat2Z.id, Hn.
Qed.

Lemma TrieStore_Get_default h s T key t :
  last (snapshots_ s) = Some t →
  (Z.of_nat (length (snapshots_ s)) ≤ size_max)%Z →
  TrieStore_Get h s T key size_max = guard_of t (Trie_Get h t T key).
Proof.
  intros Hl Hmax. unfold TrieStore_Get. cbv zeta.
  destruct (decide (size_max = size_max)) as [_|]; [|done].
  rewrite last_lookup in Hl.
  assert (0 < length (snapshots_ s)) as Hpos.
  { destruct (snapshots_ s); [done|simpl; lia]. }
  rewrite Z.mod_small by (unfold size_max in *; lia).
  destruct (decide _) as [|_]; [lia|].
  replace (Z.to_nat (Z.of_nat (length (snapshots_ s)) - 1)) with (pred (length (snapshots_ s)))
    by lia.
  by rewrite Hl.
Qed.

Lemma guard_of_Ok t r : (∃ x, r = Ok x) → ∃ g, guard_of t r = Ok g.
Proof. intros [[v|] ->]; simpl; eauto. Qed.

Lemma step_op_heap_le st op : heap_le st.1 (step_op st op).1.
Proof.
  destruct st as [h s]. destruct op as [T key version|key value|key|]; simpl;
    try apply heap_le_refl.
  - unfold TrieStore_Put. destruct (last (snapshots_ s)) as [cur|]; [|apply heap_le_refl].
    destruct (Trie_Put cur key value h) as [h' r] eqn:Hrun.
    destruct (Trie_Put_spec h value cur key h' r Hrun) as [Hle _]. by destruct r.
  - unfold TrieStore_Remove. destruct (last (snapshots_ s)) as [cur|]; [|apply heap_le_refl].
    destruct (Trie_Remove cur key h) as [h' r] eqn:Hrun.
    destruct (Trie_Remove_spec h cur key h' r Hrun) as [Hle _]. by destruct r.
Qed.

Lemma guard_of_heap_le h h' t T key g :
  heap_le h h' → guard_of t (Trie_Get h t T key) = Ok g →
  guard_of t (Trie_Get h' t T key) = Ok g.
Proof.
  intros Hle. destruct (Trie_Get h t T key) as [r|e] eqn:Hget; [|by destruct e].
  unfold Trie_Get in *. by rewrite (Get_from_heap_le _ _ _ _ _ _ Hle Hget).
Qed.
End store_reads.

(** ** Reading through [walk] *)

Section walk_facts.
Implicit Types (h : heap) (t : Trie).

Lemma walk_lt h q : ∀ r a,
  heap_closed h → r < length h → walk h r q = Some a → a < length h.
Proof.
  induction q as [|ch rest IH]; intros r a Hcl Hr Hw; simpl in Hw.
  { by injection Hw as <-. }
  destruct (h !! r) as [n|] eqn:Hn; [|done]. simpl in Hw.
  destruct (children_ n !! ch) as [c|] eqn:Hc; [|done]. simpl in Hw.
  eapply IH; [done| |done]. by apply (Hcl r n ch c).
Qed.

(** A walk that starts at a node of a closed store [h0] never leaves [h0]. *)
Lemma walk_old h0 h q : ∀ a,
  heap_closed h0 → heap_le h0 h → a < length h0 → walk h a q = walk h0 a q.
Proof.
  induction q as [|ch rest IH]; intros a Hcl Hle Ha; simpl; [done|].
  destruct (lookup_lt_is_Some_2 h0 a Ha) as [n Hn].
  rewrite Hn, (Hle _ _ Hn). simpl.
  destruct (children_ n !! ch) as [c|] eqn:Hc; simpl; [|done].
  apply IH; [done..|]. by apply (Hcl a n ch c).
Qed.

Lemma Get_from_nil_read h T a n :
  h !! a = Some n → Get_from h T (Some a) "" = Ok (read_node T n).
Proof.
  intros Hn. rewrite (Get_from_nil h T a n Hn). unfold read_node.
  destruct (is_value_node_ n); [|done]. by destruct (cast_value T n).
Qed.

(** [Get] on a well-formed trie: it reads the node the key leads to. *)
Lemma Trie_Get_read h t T q :
  Trie_wf h t →
  Trie_Get h t T q = Ok (a ← node_at h t q; n ← h !! a; read_node T n).
Proof.
  intros [Hcl Hroot]. unfold Trie_Get, node_at.
  destruct (root_ t) as [r|]; simpl; [|apply Get_from_null].
  specialize (Hroot r eq_refl). revert r Hroot.
  induction q as [|ch rest IH]; intros r Hr.
  - destruct (lookup_lt_is_Some_2 h r Hr) as [n Hn]. simpl walk. simpl mbind.
    rewrite Hn. simpl. by apply Get_from_nil_read.
  - destruct (lookup_lt_is_Some_2 h r Hr) as [n Hn]. simpl. rewrite Hn. simpl.
    destruct (children_ n !! ch) as [c|] eqn:Hc; simpl; [|done].
    apply IH. by apply (Hcl r n ch c).
Qed.

Lemma walk_children h0 h e n (m : gmap ascii nat) c rest :
  heap_closed h0 → heap_le h0 h →
  h !! e = Some n → children_ n = m →
  (∀ c b, m !! c = Some b → b < length h0) →
  walk h e (String c rest) = (a1 ← m !! c; walk h0 a1 rest).
Proof.
  intros Hcl Hle He <- Hold. simpl. rewrite He. simpl.
  destruct (children_ n !! c) as [a1|] eqn:Hc; simpl; [|done].
  apply walk_old; [done..|]. by eapply Hold.
Qed.

Lemma walk_via h x px pc e q :
  h !! x = Some px → children_ px !! pc = Some e →
  walk h x (String pc q) = walk h e q.
Proof. intros Hx Hpc. simpl. rewrite Hx. simpl. by rewrite Hpc. Qed.
End walk_facts.

(** ** [Put] and the other keys *)

Section put_other_keys.
Variable h0 : heap.
Variable value : Value.
Hypothesis Hcl0 : heap_closed h0.

Lemma Put_finish_run parent x pc (h1 : heap) p px :
  h1 !! parent = Some p → h1 !! x = Some px →
  Put_finish value parent (Some x) pc h1 =
  if is_value_node_ p then
    match cast_value (type_of value) p with
    | Some _ => (<[parent := set_value p value]> h1, Ok tt)
    | None => (h1, Ok tt)
    end
  else
    (<[x := set_children px (<[pc := length h1]> (children_ px))]>
       (h1 ++ [TrieNodeWithValue (children_ p) value]), Ok tt).
Proof.
  intros Hp Hx. unfold Put_finish. rewrite (bind_Ok _ _ _ _ _ (load_Some _ _ _ Hp)).
  destruct (is_value_node_ p); simpl; [by destruct (cast_value _ _)|].
  rewrite (bind_Ok _ _ _ _ _ (alloc_run _ _)).
  by rewrite (set_child_Some _ _ _ _ px) by (by apply lookup_app_l_Some).
Qed.

(** From inside the loop: along every key that leaves the path, the new trie
    leads where the children of [p] led in [h0]. *)
Lemma Put_tail_walk key : ∀ parent pre pc (h1 : heap) p h2,
  heap_le h0 h1 → length h0 ≤ parent → h1 !! parent = Some p →
  pre_ok h0 h1 parent pre pc →
  (∀ c b, children_ p !! c = Some b → b < length h0) →
  Put_tail value key parent pre pc h1 = (h2, Ok tt) →
  ∀ c rest, String.prefix (String c rest) key = false →
    walk h2 (walk_start pre parent) (walk_key pre pc (String c rest)) =
    (a1 ← children_ p !! c; walk h0 a1 rest).
Proof.
  induction key as [|ch rest IH]; intros parent pre pc h1 p h2 Hle Hlo Hp Hpre Hold Hrun c rq Hq.
  - assert (parent < length h1) as Hlt by (by eapply lookup_lt_Some).
    destruct (Put_finish_spec h0 value parent pre pc h1 p h2 (Ok tt)) as [Hw _]; try done.
    assert (heap_le h0 h2) as Hle2
      by (by apply (fresh_writes_heap_le h0 h1 h2 parent pre pc)).
    rewrite Put_tail_nil in Hrun. destruct pre as [x|].
    + destruct Hpre as (Hx0 & Hxp & px & Hx & Hpx).
      assert (x < length h1) as Hxlt by (by eapply lookup_lt_Some).
      rewrite (Put_finish_run parent x pc h1 p px Hp Hx) in Hrun. cbn [walk_start walk_key].
      destruct (is_value_node_ p).
      * assert (∃ p', h2 = <[parent := p']> h1 ∧ children_ p' = children_ p)
          as (p' & -> & Hc).
        { destruct (cast_value (type_of value) p); inversion Hrun; subst.
          - by eexists.
          - exists p. by rewrite list_insert_id. }
        rewrite (walk_via _ x px pc parent)
          by (by rewrite ?list_lookup_insert_ne).
        eapply walk_children; [done..| |exact Hc|done].
        by apply list_lookup_insert_eq.
      * inversion Hrun; subst. clear Hrun.
        rewrite (walk_via _ x (set_children px (<[pc := length h1]> (children_ px))) pc
                   (length h1)).
        -- eapply (walk_children h0 _ _ (TrieNodeWithValue (children_ p) value));
             [done..| |done|done].
           rewrite list_lookup_insert_ne by lia. apply lookup_alloc.
        -- apply list_lookup_insert_eq. rewrite length_app. simpl. lia.
        -- simpl. apply lookup_insert_eq.
    + change (Put_finish value parent None pc h1)
        with (Put_finish value parent None Ascii.zero h1) in Hrun.
      rewrite (Put_finish_root_run value parent h1 p Hp) in Hrun. cbn [walk_start walk_key].
      destruct (is_value_node_ p); [|done].
      assert (∃ p', h2 = <[parent := p']> h1 ∧ children_ p' = children_ p)
        as (p' & -> & Hc).
      { destruct (cast_value (type_of value) p); inversion Hrun; subst.
        - by eexists.
        - exists p. by rewrite list_insert_id. }
      eapply walk_children; [done..| |exact Hc|done].
      by apply list_lookup_insert_eq.
  - rewrite Put_tail_cons in Hrun.
    assert (parent < length h1) as Hlt by (by eapply lookup_lt_Some).
    rewrite (bind_Ok _ _ _ _ _ (load_Some _ _ _ Hp)) in Hrun.
    set (mk := match children_ p !! ch with
               | Some c => Clone c
               | None => alloc TrieNode_new
               end) in Hrun.
    assert (∃ nn, mk h1 = (h1 ++ [nn], Ok (length h1)) ∧
                  (∀ c b, children_ nn !! c = Some b → b < length h0) ∧
                  ∀ c2 r2, (a2 ← children_ nn !! c2; walk h0 a2 r2) =
                           (a1 ← children_ p !! ch; walk h0 a1 (String c2 r2)))
      as (nn & Hmk & Hnnold & Hnnw).
    { subst mk. destruct (children_ p !! ch) as [c0|] eqn:Hc.
      - destruct (lookup_lt_is_Some_2 h0 c0 (Hold _ _ Hc)) as [o Ho].
        exists (clone_node o). split; [apply Clone_Some; by apply Hle|]. split.
        + intros c' b. rewrite children_clone_node. by apply (Hcl0 c0 o).
        + intros c2 r2. simpl. rewrite Ho. simpl. by rewrite children_clone_node.
      - exists TrieNode_new. split; [done|]. split.
        + intros c' b. simpl. by rewrite lookup_empty.
        + intros c2 r2. simpl. by rewrite lookup_empty. }
    rewrite (bind_Ok _ _ _ _ _ Hmk) in Hrun.
    set (p1 := set_children p (<[ch := length h1]> (children_ p))).
    assert ((h1 ++ [nn]) !! parent = Some p) as Hp1 by (by apply lookup_app_l_Some).
    rewrite (bind_Ok _ _ _ _ _ (set_child_Some _ _ ch (length h1) _ Hp1)) in Hrun.
    fold p1 in Hrun. set (h1' := <[parent := p1]> (h1 ++ [nn])) in Hrun.
    assert (length h1' = S (length h1)) as Hlen'
      by (subst h1'; rewrite length_insert, length_app; simpl; lia).
    assert (h1' !! parent = Some p1) as Hp1'.
    { subst h1'. apply list_lookup_insert_eq. rewrite length_app. simpl. lia. }
    assert (h1' !! length h1 = Some nn) as Hnn'.
    { subst h1'. rewrite list_lookup_insert_ne by lia. apply lookup_alloc. }
    assert (pre_ok h0 h1' (length h1) (Some parent) ch) as Hpre'.
    { simpl. split; [done|]. split; [lia|]. exists p1. split; [done|].
      subst p1. simpl. apply lookup_insert_eq. }
    assert (heap_le h0 h1') as Hle'.
    { apply (fresh_writes_heap_le h0 h1 h1' parent pre pc); try done.
      eapply writes_within_trans; [apply writes_within_alloc|].
      apply writes_within_store. by left. }
    destruct (Put_tail_spec h0 value rest (length h1) (Some parent) ch h1' nn h2 (Ok tt))
      as [Hw HS]; try done; [lia|].
    destruct (HS eq_refl) as (e' & _ & (px1 & Hpx1 & Hpx2) & _).
    assert (px1 = p1) as -> by congruence.
    assert (heap_le h0 h2) as Hle2.
    { apply (fresh_writes_heap_le h0 h1' h2 (length h1) (Some parent) ch); try done. lia. }
    assert (walk h2 parent (String c rq) = (a1 ← children_ p !! c; walk h0 a1 rq)) as Hwalk.
    { simpl in Hq. destruct (ascii_dec c ch) as [->|Hne].
      - destruct rq as [|c2 r2]; [by destruct rest|].
        rewrite <- Hnnw.
        apply (IH (length h1) (Some parent) ch h1' nn h2); try done. lia.
      - simpl. rewrite Hpx2. simpl. subst p1. simpl.
        rewrite !lookup_insert_ne by done.
        destruct (children_ p !! c) as [a1|] eqn:Hc; simpl; [|done].
        apply walk_old; [done..|]. by eapply Hold. }
    destruct pre as [x|]; [|done]. destruct Hpre as (Hx0 & Hxp & px & Hx & Hpx).
    assert (x < length h1) as Hxlt by (by eapply lookup_lt_Some).
    cbn [walk_start walk_key]. rewrite (walk_via h2 x px pc parent); [done| |done].
    destruct Hw as [_ Hfr]. rewrite Hfr.
    + subst h1'. rewrite list_lookup_insert_ne by done. by apply lookup_app_l_Some.
    + lia.
    + intros [->|[= ->]]; [lia|done].
Qed.
End put_other_keys.

Section put_other_keys_top.
Implicit Types (h : heap) (t : Trie).

Lemma node_at_lt h t q a : Trie_wf h t → node_at h t q = Some a → a < length h.
Proof.
  intros [Hcl Hroot]. unfold node_at. destruct (root_ t) as [r|]; [|done]. simpl.
  apply walk_lt; [done|]. by apply Hroot.
Qed.

(** Reading a key whose node is a node of the old store. *)
Lemma read_shared h h' t t' T q :
  Trie_wf h t → Trie_wf h' t' → heap_le h h' →
  node_at h' t' q = node_at h t q →
  Trie_Get h' t' T q = Trie_Get h t T q.
Proof.
  intros Hwf Hwf' Hle Hat.
  rewrite (Trie_Get_read h' t' T q Hwf'), (Trie_Get_read h t T q Hwf), Hat.
  destruct (node_at h t q) as [a|] eqn:Ha; simpl; [|done].
  destruct (lookup_lt_is_Some_2 h a (node_at_lt h t q a Hwf Ha)) as [n Hn].
  by rewrite Hn, (Hle _ _ Hn).
Qed.

Lemma Trie_Put_node_at t k v h h' t' :
  Trie_wf h t → Trie_Put t k v h = (h', Ok t') →
  ∀ q, String.prefix q k = false → node_at h' t' q = node_at h t q.
Proof.
  intros [Hcl Hroot] Hrun q Hq.
  destruct q as [|c rest]; [by destruct k|].
  destruct (clone_or_new_run (root_ t) h Hcl Hroot) as (nn & Hmk & _ & Hclone & Hnew).
  rewrite Trie_Put_unfold in Hrun. rewrite (bind_Ok _ _ _ _ _ Hmk) in Hrun.
  destruct (Put_tail v k (length h) None Ascii.zero (h ++ [nn])) as [h2 [[]|e]] eqn:Htail;
    cycle 1.
  { by rewrite (bind_Fault _ _ _ _ _ Htail) in Hrun. }
  rewrite (bind_Ok _ _ _ _ _ Htail) in Hrun. inversion Hrun; subst. clear Hrun.
  assert (∀ c b, children_ nn !! c = Some b → b < length h) as Hold.
  { intros c' b. destruct (root_ t) as [r|].
    - destruct (lookup_lt_is_Some_2 h r (Hroot r eq_refl)) as [o Ho].
      rewrite (Hclone r o eq_refl Ho), children_clone_node. by apply (Hcl r o).
    - rewrite (Hnew eq_refl). simpl. by rewrite lookup_empty. }
  pose proof (Put_tail_walk h v Hcl k (length h) None Ascii.zero (h ++ [nn]) nn h'
                ltac:(intros a n Ha; by apply lookup_app_l_Some) ltac:(done)
                (lookup_alloc h nn) I Hold Htail c rest Hq) as Hw.
  unfold node_at. simpl in *. rewrite Hw.
  destruct (root_ t) as [r|]; simpl.
  - destruct (lookup_lt_is_Some_2 h r (Hroot r eq_refl)) as [o Ho].
    rewrite (Hclone r o eq_refl Ho), children_clone_node, Ho. done.
  - by rewrite (Hnew eq_refl).
Qed.
End put_other_keys_top.

(** ** [Remove] and the other keys *)

Section remove_other_keys.
Variable h0 : heap.
Variable this : Trie.
Variable new_root : nat.
Hypothesis Hcl0 : heap_closed h0.

Lemma Remove_finish_run parent x pc path' (h1 : heap) pt px :
  h1 !! parent = Some pt → h1 !! x = Some px →
  path_ok h0 h1 parent ((x, pc) :: path') →
  Remove_finish this new_root parent ((x, pc) :: path') h1 =
  if is_value_node_ pt then
    if bool_decide (children_ pt = ∅) then
      (<[parent := set_is_value_node pt false]> h1, Ok (mkTrie (Some new_root)))
    else
      (<[x := set_children px (<[pc := length h1]> (children_ px))]>
         (<[parent := set_is_value_node pt false]> h1 ++ [TrieNode_of (children_ pt)]),
       Ok (mkTrie (Some new_root)))
  else (h1, Ok this).
Proof.
  intros Hp Hx [Hpre Hgr].
  assert (parent < length h1) as Hlt by (by eapply lookup_lt_Some).
  simpl in Hpre. destruct Hpre as (Hx0 & Hxp & px0 & Hx' & Hpx).
  assert (px0 = px) as -> by congruence.
  assert (x < length h1) as Hxlt by (by eapply lookup_lt_Some).
  unfold Remove_finish. rewrite (bind_Ok _ _ _ _ _ (load_Some _ _ _ Hp)).
  destruct (is_value_node_ pt) eqn:Hv; [|done].
  rewrite (bind_Ok _ _ _ _ _ (store_run _ _ _)).
  set (pf := set_is_value_node pt false).
  set (hA := <[parent := pf]> h1).
  assert (length hA = length h1) as HlenA by (subst hA; apply length_insert).
  assert (∀ a, a ≠ parent → hA !! a = h1 !! a) as HneA
    by (intros a Ha; subst hA; by apply list_lookup_insert_ne).
  destruct (bool_decide (children_ pt = ∅)) eqn:Hemp.
  - assert (Remove_prune path' hA = (hA, Ok tt)) as Hprune.
    { apply Remove_prune_stops.
      destruct path' as [|[y pc'] path'']; [done|].
      destruct Hgr as (Hyp & Hyx & py & Hy & Hpy).
      exists py, x, px. rewrite !HneA by done.
      repeat split; try done. by eapply dead_with_child. }
    by rewrite (bind_Ok _ _ _ _ _ Hprune).
  - rewrite (bind_Ok _ _ _ _ _ (alloc_run _ _)).
    set (np := TrieNode_of (children_ pt)).
    assert (dead np = false) as Hnp by (unfold dead; simpl; by rewrite Hemp).
    assert ((hA ++ [np]) !! x = Some px) as HxB.
    { apply lookup_app_l_Some. by rewrite HneA. }
    rewrite (bind_Ok _ _ _ _ _ (set_child_Some _ _ pc (length hA) _ HxB)).
    set (px' := set_children px (<[pc := length hA]> (children_ px))).
    set (hC := <[x := px']> (hA ++ [np])).
    assert (hC !! x = Some px') as HxC.
    { subst hC. apply list_lookup_insert_eq. rewrite length_app. simpl. lia. }
    assert (hC !! length hA = Some np) as HnC.
    { subst hC. rewrite list_lookup_insert_ne by lia. apply lookup_alloc. }
    assert (Remove_prune ((x, pc) :: path') hC = (hC, Ok tt)) as Hprune.
    { apply Remove_prune_stops.
      exists px', (length hA), np. repeat split; try done.
      subst px'. simpl. apply lookup_insert_eq. }
    rewrite (bind_Ok _ _ _ _ _ Hprune). subst hC px'. by rewrite HlenA.
Qed.

Lemma Remove_tail_walk key : ∀ parent path (h1 : heap) p h2 t',
  heap_le h0 h1 → length h0 ≤ parent → h1 !! parent = Some p →
  path_ok h0 h1 parent path →
  (path = [] → parent = new_root) →
  (∀ c b, children_ p !! c = Some b → b < length h0) →
  Remove_tail this new_root key parent path h1 = (h2, Ok t') →
  back_kept h1 h2 path ∧
  ∀ c rest, String.prefix (String c rest) key = false →
    walk h2 (walk_start (path_back path).1 parent)
            (walk_key (path_back path).1 (path_back path).2 (String c rest)) =
    (a1 ← children_ p !! c; walk h0 a1 rest).
Proof.
  induction key as [|ch rest IH];
    intros parent path h1 p h2 t' Hle Hlo Hp Hpath Hnil Hold Hrun.
  - assert (parent < length h1) as Hlt by (by eapply lookup_lt_Some).
    destruct (Remove_finish_spec h0 this new_root parent path h1 p h2 (Ok t')) as [Hw _];
      try done.
    assert (heap_le h0 h2) as Hle2.
    { apply (fresh_writes_heap_le h0 h1 h2 parent (path_back path).1 (path_back path).2);
        try done. apply Hpath. }
    rewrite Remove_tail_nil in Hrun. destruct path as [|[x pc] path'].
    + split; [done|]. intros c rq _. cbn [path_back fst snd walk_start walk_key].
      rewrite (Remove_finish_root_run this new_root parent h1 p Hp) in Hrun.
      assert (∃ p', h2 !! parent = Some p' ∧ children_ p' = children_ p) as (p' & Hp' & Hc).
      { destruct (is_value_node_ p); [|inversion Hrun; subst; eauto].
        destruct (bool_decide (children_ p = ∅)); [done|].
        inversion Hrun; subst. exists (set_is_value_node p false). split; [|done].
        apply lookup_app_l_Some. by apply list_lookup_insert_eq. }
      eapply walk_children; [done..|exact Hp'|exact Hc|done].
    + destruct Hpath as [Hpre Hgr]. pose proof Hpre as Hpre0.
      simpl in Hpre. destruct Hpre as (Hx0 & Hxp & px & Hx & Hpx).
      assert (x < length h1) as Hxlt by (by eapply lookup_lt_Some).
      rewrite (Remove_finish_run parent x pc path' h1 p px Hp Hx) in Hrun by done.
      cbn [path_back fst snd walk_start walk_key].
      assert (∃ px' e pe, h2 !! x = Some px' ∧ children_ px' = <[pc := e]> (children_ px) ∧
                          h2 !! e = Some pe ∧ children_ pe = children_ p)
        as (px' & e & pe & Hx2 & Hcx & He & Hce).
      { destruct (is_value_node_ p).
        - destruct (bool_decide (children_ p = ∅)); inversion Hrun; subst.
          + exists px, parent, (set_is_value_node p false).
            rewrite list_lookup_insert_ne by done.
            rewrite list_lookup_insert_eq by done. by rewrite insert_id.
          + eexists _, (length h1), (TrieNode_of (children_ p)).
            rewrite list_lookup_insert_eq
              by (rewrite length_app, length_insert; simpl; lia).
            rewrite list_lookup_insert_ne by lia.
            split; [done|]. split; [done|]. split; [|done].
            rewrite <- (length_insert h1 parent (set_is_value_node p false)).
            apply lookup_alloc.
        - inversion Hrun; subst. exists px, parent, p. by rewrite insert_id. }
      split.
      * exists px, px'. split; [done|]. split; [done|].
        intros c Hc. by rewrite Hcx, lookup_insert_ne.
      * intros c rq _. rewrite (walk_via h2 x px' pc e); [|done|].
        -- eapply walk_children; [done..|exact He|exact Hce|done].
        -- rewrite Hcx. apply lookup_insert_eq.
  - rewrite Remove_tail_cons in Hrun.
    assert (parent < length h1) as Hlt by (by eapply lookup_lt_Some).
    rewrite (bind_Ok _ _ _ _ _ (load_Some _ _ _ Hp)) in Hrun.
    assert (∀ c rq, walk h1 parent (String c rq) = (a1 ← children_ p !! c; walk h0 a1 rq))
      as Hsame.
    { intros c rq. by eapply walk_children. }
    assert (∀ h, h = h1 →
              back_kept h1 h path ∧
              ∀ c rq, walk h (walk_start (path_back path).1 parent)
                        (walk_key (path_back path).1 (path_back path).2 (String c rq)) =
                      (a1 ← children_ p !! c; walk h0 a1 rq)) as Hnochange.
    { intros h ->. destruct path as [|[x pc] path']; [by split|].
      destruct Hpath as [(Hx0 & Hxp & px & Hx & Hpx) _]. split.
      - by exists px, px.
      - intros c rq. cbn [path_back fst snd walk_start walk_key].
        by rewrite (walk_via h1 x px pc parent). }
    destruct (children_ p !! ch) as [c0|] eqn:Hc0; cycle 1.
    { inversion Hrun; subst. destruct (Hnochange h2 eq_refl) as [Hk Hw]. by split. }
    destruct (lookup_lt_is_Some_2 h0 c0 (Hold _ _ Hc0)) as [o Ho].
    rewrite (bind_Ok _ _ _ _ _ (Clone_Some _ _ _ (Hle _ _ Ho))) in Hrun.
    set (nn := clone_node o) in Hrun.
    set (p1 := set_children p (<[ch := length h1]> (children_ p))).
    assert ((h1 ++ [nn]) !! parent = Some p) as Hp1 by (by apply lookup_app_l_Some).
    rewrite (bind_Ok _ _ _ _ _ (set_child_Some _ _ ch (length h1) _ Hp1)) in Hrun.
    fold p1 in Hrun. set (h1' := <[parent := p1]> (h1 ++ [nn])) in Hrun.
    assert (h1' !! parent = Some p1) as Hp1'.
    { subst h1'. apply list_lookup_insert_eq. rewrite length_app. simpl. lia. }
    assert (∀ a, a < length h1 → a ≠ parent → h1' !! a = h1 !! a) as Hne'.
    { intros a Ha Hap. subst h1'. rewrite list_lookup_insert_ne by done.
      by apply lookup_app_l. }
    assert (h1' !! length h1 = Some nn) as Hnn'.
    { subst h1'. rewrite list_lookup_insert_ne by lia. apply lookup_alloc. }
    assert (length h1' = S (length h1)) as Hlen'
      by (subst h1'; rewrite length_insert, length_app; simpl; lia).
    assert (heap_le h0 h1') as Hle'.
    { intros a n Ha. assert (a < length h0) by (by eapply lookup_lt_Some).
      rewrite Hne' by lia. by apply Hle. }
    assert (path_ok h0 h1' (length h1) ((parent, ch) :: path)) as Hpath'.
    { destruct Hpath as [Hpre Hgr]. split.
      - simpl. split; [done|]. split; [lia|]. exists p1. split; [done|].
        subst p1. simpl. apply lookup_insert_eq.
      - destruct path as [|[y pc'] path']; [done|].
        simpl in Hpre. destruct Hpre as (Hy0 & Hyp & py & Hy & Hpy).
        assert (y < length h1) by (by eapply lookup_lt_Some).
        split; [lia|]. split; [done|]. exists py. by rewrite Hne'. }
    assert (∀ c b, children_ nn !! c = Some b → b < length h0) as Hnnold.
    { intros c' b. subst nn. rewrite children_clone_node. by apply (Hcl0 c0 o). }
    destruct (IH (length h1) ((parent, ch) :: path) h1' nn h2 t') as [Hk HW];
      try done; [lia|].
    destruct (Remove_tail_spec h0 this new_root rest (length h1) ((parent, ch) :: path)
                h1' nn h2 _ Hle' ltac:(lia) Hnn' Hpath' ltac:(done) Hrun) as [Hfr _].
    assert (heap_le h0 h2) as Hle2.
    { apply (fresh_writes_heap_le h0 h1' h2 (length h1) (Some parent) ch); try done.
      - lia.
      - apply Hpath'. }
    simpl in Hk. destruct Hk as (pk & pk' & Hpk & Hpk' & Hkept).
    assert (pk = p1) as -> by congruence.
    assert (∀ c rq, String.prefix (String c rq) (String ch rest) = false →
              walk h2 parent (String c rq) = (a1 ← children_ p !! c; walk h0 a1 rq))
      as Hwalk.
    { intros c rq Hq. simpl in Hq. destruct (ascii_dec c ch) as [->|Hne].
      - destruct rq as [|c2 r2]; [by destruct rest|].
        pose proof (HW c2 r2 Hq) as HW'.
        cbn [path_back fst snd walk_start walk_key] in HW'. rewrite HW'.
        rewrite Hc0. simpl. rewrite Ho. simpl. subst nn.
        by rewrite children_clone_node.
      - simpl. rewrite Hpk'. simpl. rewrite (Hkept c Hne). subst p1. simpl.
        rewrite lookup_insert_ne by done.
        destruct (children_ p !! c) as [a1|] eqn:Hc; simpl; [|done].
        apply walk_old; [done..|]. by eapply Hold. }
    destruct path as [|[x pc] path']; [by split|].
    destruct Hpath as [(Hx0 & Hxp & px & Hx & Hpx) _].
    assert (x < length h1) as Hxlt by (by eapply lookup_lt_Some).
    assert (h2 !! x = Some px) as Hx2.
    { destruct Hfr as [_ Hfr]. simpl in Hfr. rewrite Hfr.
      - by rewrite Hne'.
      - lia.
      - intros [->|[= ->]]; [lia|done]. }
    split.
    + by exists px, px.
    + intros c rq Hq. cbn [path_back fst snd walk_start walk_key].
      rewrite (walk_via h2 x px pc parent); [|done..]. by apply Hwalk.
Qed.
End remove_other_keys.

Section remove_other_keys_top.
Implicit Types (h : heap) (t : Trie).

Lemma node_at_old h h' t q :
  Trie_wf h t → heap_le h h' → node_at h' t q = node_at h t q.
Proof.
  intros [Hcl Hroot] Hle. unfold node_at. destruct (root_ t) as [r|]; [|done]. simpl.
  apply walk_old; [done..|]. by apply Hroot.
Qed.

Lemma Trie_Remove_node_at t k h h' t' :
  Trie_wf h t → Trie_Remove t k h = (h', Ok t') →
  ∀ q, String.prefix q k = false → node_at h' t' q = node_at h t q.
Proof.
  intros Hwf Hrun q Hq.
  destruct (Trie_Remove_spec h t k h' (Ok t') Hrun) as [Hle _].
  assert (t' = t → node_at h' t' q = node_at h t q) as Hsame
    by (intros ->; by apply node_at_old).
  destruct q as [|c rest]; [by destruct k|].
  pose proof Hwf as [Hcl Hroot].
  rewrite Trie_Remove_unfold in Hrun.
  destruct (root_ t) as [r|] eqn:Hr; [|apply Hsame; congruence].
  destruct (lookup_lt_is_Some_2 h r (Hroot r eq_refl)) as [o Ho].
  rewrite (bind_Ok _ _ _ _ _ (Clone_Some _ _ _ Ho)) in Hrun.
  set (nn := clone_node o) in Hrun.
  assert (∀ c b, children_ nn !! c = Some b → b < length h) as Hold.
  { intros c' b. subst nn. rewrite children_clone_node. by apply (Hcl r o). }
  assert (node_at h t (String c rest) = (a1 ← children_ nn !! c; walk h a1 rest)) as Hold_at.
  { unfold node_at. rewrite Hr. simpl. rewrite Ho. simpl. subst nn.
    by rewrite children_clone_node. }
  destruct k as [|ch rk].
  - rewrite Remove_tail_nil in Hrun.
    rewrite (Remove_finish_root_run t (length h) (length h) _ nn (lookup_alloc h nn)) in Hrun.
    destruct (is_value_node_ nn); [|apply Hsame; congruence].
    destruct (bool_decide (children_ nn = ∅)); [done|].
    inversion Hrun; subst h' t'. clear Hrun. rewrite Hold_at.
    unfold node_at. cbn [root_ mbind option_bind].
    eapply (walk_children h _ _ (TrieNode_of (children_ nn))); [done..| |done|done].
    rewrite <- (length_insert (h ++ [nn]) (length h) (set_is_value_node nn false)).
    apply lookup_alloc.
  - destruct (Trie_Remove_result t (String ch rk) h Hwf ltac:(done)) as (h2 & Hres & _).
    rewrite Trie_Remove_unfold, Hr in Hres.
    rewrite (bind_Ok _ _ _ _ _ (Clone_Some _ _ _ Ho)) in Hres. fold nn in Hres.
    rewrite Hres in Hrun.
    destruct (value_object_at h t (String ch rk)); [|apply Hsame; congruence].
    inversion Hrun; subst h2 t'. clear Hrun.
    destruct (Remove_tail_walk h t (length h) Hcl (String ch rk) (length h) []
                (h ++ [nn]) nn h' _
                ltac:(intros a n Ha; by apply lookup_app_l_Some) ltac:(done)
                (lookup_alloc h nn) ltac:(done) ltac:(done) Hold Hres) as [_ Hw].
    rewrite Hold_at. unfold node_at. cbn [root_ mbind option_bind]. by apply Hw.
Qed.
End remove_other_keys_top.

(** ** [Put] and the prefixes of its key *)

Section put_prefix_keys.
Variable h0 : heap.
Variable value : Value.
Hypothesis Hcl0 : heap_closed h0.

(** From inside the loop: a proper prefix [q] of the key leads to a node
    with the flag and the value member of the clone made for it. *)
Lemma Put_tail_prefix key : ∀ parent pre pc (h1 : heap) p h2,
  heap_le h0 h1 → length h0 ≤ parent → h1 !! parent = Some p →
  pre_ok h0 h1 parent pre pc →
  (∀ c b, children_ p !! c = Some b → b < length h0) →
  Put_tail value key parent pre pc h1 = (h2, Ok tt) →
  ∀ q, String.prefix q key = true → q ≠ key →
    ∃ e n, walk h2 (walk_start pre parent) (walk_key pre pc q) = Some e ∧
           h2 !! e = Some n ∧
           is_value_node_ n = is_value_node_ (put_clone h0 p q) ∧
           value_ n = value_ (put_clone h0 p q).
Proof.
  induction key as [|ch rest IH]; intros parent pre pc h1 p h2 Hle Hlo Hp Hpre Hold Hrun q Hq Hne.
  { destruct q; [done|simpl in Hq; done]. }
  rewrite Put_tail_cons in Hrun.
  assert (parent < length h1) as Hlt by (by eapply lookup_lt_Some).
  rewrite (bind_Ok _ _ _ _ _ (load_Some _ _ _ Hp)) in Hrun.
  set (mk := match children_ p !! ch with
             | Some c => Clone c
             | None => alloc TrieNode_new
             end) in Hrun.
  set (nn := match a1 ← children_ p !! ch; h0 !! a1 with
             | Some o => clone_node o
             | None => TrieNode_new
             end).
  assert (mk h1 = (h1 ++ [nn], Ok (length h1)) ∧
          (∀ c b, children_ nn !! c = Some b → b < length h0)) as [Hmk Hnnold].
  { subst mk nn. destruct (children_ p !! ch) as [c0|] eqn:Hc; simpl.
    - destruct (lookup_lt_is_Some_2 h0 c0 (Hold _ _ Hc)) as [o Ho]. rewrite Ho.
      split; [apply Clone_Some; by apply Hle|].
      intros c' b. rewrite children_clone_node. by apply (Hcl0 c0 o).
    - split; [done|]. intros c' b. simpl. by rewrite lookup_empty. }
  rewrite (bind_Ok _ _ _ _ _ Hmk) in Hrun.
  set (p1 := set_children p (<[ch := length h1]> (children_ p))).
  assert ((h1 ++ [nn]) !! parent = Some p) as Hp1 by (by apply lookup_app_l_Some).
  rewrite (bind_Ok _ _ _ _ _ (set_child_Some _ _ ch (length h1) _ Hp1)) in Hrun.
  fold p1 in Hrun. set (h1' := <[parent := p1]> (h1 ++ [nn])) in Hrun.
  assert (length h1' = S (length h1)) as Hlen'
    by (subst h1'; rewrite length_insert, length_app; simpl; lia).
  assert (h1' !! parent = Some p1) as Hp1'.
  { subst h1'. apply list_lookup_insert_eq. rewrite length_app. simpl. lia. }
  assert (h1' !! length h1 = Some nn) as Hnn'.
  { subst h1'. rewrite list_lookup_insert_ne by lia. apply lookup_alloc. }
  assert (pre_ok h0 h1' (length h1) (Some parent) ch) as Hpre'.
  { simpl. split; [done|]. split; [lia|]. exists p1. split; [done|].
    subst p1. simpl. apply lookup_insert_eq. }
  assert (heap_le h0 h1') as Hle'.
  { apply (fresh_writes_heap_le h0 h1 h1' parent pre pc); try done.
    eapply writes_within_trans; [apply writes_within_alloc|].
    apply writes_within_store. by left. }
  destruct (Put_tail_spec h0 value rest (length h1) (Some parent) ch h1' nn h2 (Ok tt))
    as [Hw HS]; try done; [lia|].
  destruct (HS eq_refl) as (e' & _ & (px1 & Hpx1 & Hpx2) & _).
  assert (px1 = p1) as -> by congruence.
  assert (∃ e n, walk h2 parent q = Some e ∧ h2 !! e = Some n ∧
                 is_value_node_ n = is_value_node_ (put_clone h0 p q) ∧
                 value_ n = value_ (put_clone h0 p q)) as (e & n & Hwalk & He & Hflag & Hval).
  { destruct q as [|c q'].
    - exists parent. eexists. split; [done|]. split; [exact Hpx2|]. done.
    - simpl in Hq. destruct (ascii_dec c ch) as [->|]; [|done].
      assert (q' ≠ rest) as Hne' by congruence.
      destruct (IH (length h1) (Some parent) ch h1' nn h2 Hle' ltac:(lia) Hnn' Hpre'
                  Hnnold Hrun q' Hq Hne') as (e & n & Hwq & He & Hflag & Hval).
      exists e, n. split; [exact Hwq|]. split; [done|]. done. }
  exists e, n. split; [|done].
  destruct pre as [x|]; [|done]. destruct Hpre as (Hx0 & Hxp & px & Hx & Hpx).
  assert (x < length h1) as Hxlt by (by eapply lookup_lt_Some).
  cbn [walk_start walk_key]. rewrite (walk_via h2 x px pc parent); [done| |done].
  destruct Hw as [_ Hfr]. rewrite Hfr.
  - subst h1'. rewrite list_lookup_insert_ne by done. by apply lookup_app_l_Some.
  - lia.
  - intros [->|[= ->]]; [lia|done].
Qed.

Lemma put_clone_new q : put_clone h0 TrieNode_new q = TrieNode_new.
Proof. induction q as [|c rest IH]; simpl; [done|]. by rewrite lookup_empty. Qed.

(** The clone made for [q] carries the value member of the object that the
    receiver holds at [q], and its flag is set exactly when there is one. *)
Lemma put_clone_object q : ∀ r o,
  h0 !! r = Some o →
  value_ (put_clone h0 (clone_node o) q) = (a ← walk h0 r q; n ← h0 !! a; value_ n) ∧
  is_value_node_ (put_clone h0 (clone_node o) q) =
    bool_decide (is_Some (value_ (put_clone h0 (clone_node o) q))).
Proof.
  induction q as [|c rest IH]; intros r o Ho; simpl.
  { rewrite Ho. simpl. unfold clone_node. by destruct (value_ o). }
  rewrite Ho. simpl. rewrite children_clone_node.
  destruct (children_ o !! c) as [a1|] eqn:Hc; simpl.
  - destruct (lookup_lt_is_Some_2 h0 a1 (Hcl0 _ _ _ _ Ho Hc)) as [o' Ho'].
    rewrite Ho'. by apply IH.
  - by rewrite put_clone_new.
Qed.
End put_prefix_keys.

Section put_prefix_keys_top.
Implicit Types (h : heap) (t : Trie).

Lemma read_node_object T n :
  is_value_node_ n = bool_decide (is_Some (value_ n)) →
  read_node T n = read_object T (value_ n).
Proof.
  unfold read_node, read_object, cast_value. intros ->.
  destruct (value_ n) as [u|]; [|done]. by rewrite bool_decide_eq_true_2.
Qed.

Lemma Trie_Put_Get_prefix t k v h h' t' T q :
  Trie_wf h t → Trie_Put t k v h = (h', Ok t') →
  String.prefix q k = true → q ≠ k →
  Trie_Get h' t' T q = Ok (read_object T (value_object_at h t q)).
Proof.
  intros [Hcl Hroot] Hrun Hq Hne.
  destruct (clone_or_new_run (root_ t) h Hcl Hroot) as (nn & Hmk & _ & Hclone & Hnew).
  rewrite Trie_Put_unfold in Hrun. rewrite (bind_Ok _ _ _ _ _ Hmk) in Hrun.
  destruct (Put_tail v k (length h) None Ascii.zero (h ++ [nn])) as [h2 [[]|e]] eqn:Htail;
    cycle 1.
  { by rewrite (bind_Fault _ _ _ _ _ Htail) in Hrun. }
  rewrite (bind_Ok _ _ _ _ _ Htail) in Hrun. inversion Hrun; subst. clear Hrun.
  assert (∀ c b, children_ nn !! c = Some b → b < length h) as Hold.
  { intros c' b. destruct (root_ t) as [r|].
    - destruct (lookup_lt_is_Some_2 h r (Hroot r eq_refl)) as [o Ho].
      rewrite (Hclone r o eq_refl Ho), children_clone_node. by apply (Hcl r o).
    - rewrite (Hnew eq_refl). simpl. by rewrite lookup_empty. }
  destruct (Put_tail_prefix h v Hcl k (length h) None Ascii.zero (h ++ [nn]) nn h'
              ltac:(intros a n Ha; by apply lookup_app_l_Some) ltac:(done)
              (lookup_alloc h nn) I Hold Htail q Hq Hne)
    as (e & n & Hw & He & Hflag & Hval).
  cbn [walk_start walk_key] in Hw. unfold Trie_Get. cbn [root_].
  rewrite (Get_from_walk _ _ _ _ _ Hw), (Get_from_nil_read _ _ _ _ He). f_equal.
  assert (value_ (put_clone h nn q) = value_object_at h t q ∧
          is_value_node_ (put_clone h nn q) =
            bool_decide (is_Some (value_ (put_clone h nn q)))) as [Hobj Hfl].
  { unfold value_object_at, node_at. destruct (root_ t) as [r|].
    - destruct (lookup_lt_is_Some_2 h r (Hroot r eq_refl)) as [o Ho].
      rewrite (Hclone r o eq_refl Ho). by apply put_clone_object.
    - rewrite (Hnew eq_refl), put_clone_new. done. }
  rewrite read_node_object by (by rewrite Hflag, Hval).
  by rewrite Hval, Hobj.
Qed.
End put_prefix_keys_top.

(** ** Further properties of the trie *)

(** X1 — On a well-formed trie, [Put<T>(k, v)] with a key that is not empty
    returns, and [Get<T>(k)] on the result is [v], provided the object the
    receiver holds at [k], if it is a [TrieNodeWithValue], holds a value of
    type [T]. *)
Theorem Put_then_Get_same_key (h : heap) (t : Trie) (k : string) (v : Value) :
  Trie_wf h t → k ≠ EmptyString →
  (∀ u, value_object_at h t k = Some u → type_of u = type_of v) →
  ∃ t', (Trie_Put t k v h).2 = Ok t' ∧
        Trie_Get (Trie_Put t k v h).1 t' (type_of v) k = Ok (Some v).
Proof.
  intros Hwf Hk Hty.
  destruct (Trie_Put_total v t k h Hwf Hk) as (t' & Hok & _).
  exists t'. split; [done|].
  destruct (Trie_Put t k v h) as [h' r] eqn:Hrun. simpl in *. subst r.
  destruct Hwf as [Hcl Hroot].
  apply (Trie_Put_Get h v Hcl t k h' t' Hroot); [|done].
  intros a n u Hat Hn Hu. apply Hty. unfold value_object_at.
  rewrite Hat. simpl. by rewrite Hn.
Qed.

Lemma Put_then_Get_same_key_witness :
  ∃ t', (Trie_Put two_keys_trie "ab" (V_uint32 9) two_keys.1).2 = Ok t' ∧
        Trie_Get (Trie_Put two_keys_trie "ab" (V_uint32 9) two_keys.1).1 t' T_uint32 "ab"
          = Ok (Some (V_uint32 9)).
Proof.
  apply (Put_then_Get_same_key two_keys.1 two_keys_trie "ab" (V_uint32 9)).
  - apply Trie_wfb_sound. vm_compute. reflexivity.
  - discriminate.
  - intros u Hu. vm_compute in Hu. injection Hu as <-. reflexivity.
Defined.

(** X2 — When [Put(k, v)] on a well-formed trie returns, every key that is
    not a prefix of [k] reads in the result exactly as in the receiver, for
    every type. *)
Theorem Put_keeps_other_keys (h : heap) (t : Trie) (k : string) (v : Value)
    (t' : Trie) (T : TypeId) (q : string) :
  Trie_wf h t → (Trie_Put t k v h).2 = Ok t' → String.prefix q k = false →
  Trie_Get (Trie_Put t k v h).1 t' T q = Trie_Get h t T q.
Proof.
  intros Hwf Hok Hq.
  destruct (Trie_Put_wf t k v h Hwf) as (_ & _ & Hwf').
  destruct (Hwf' t' Hok) as [_ Hwft'].
  destruct (Trie_Put t k v h) as [h' r] eqn:Hrun. simpl in *. subst r.
  apply read_shared; [done..| |].
  - by destruct (Trie_Put_spec h v t k h' (Ok t') Hrun).
  - by apply (Trie_Put_node_at t k v h h' t').
Qed.

Lemma Put_keeps_other_keys_witness :
  Trie_Get (Trie_Put two_keys_trie "ab" (V_uint32 9) two_keys.1).1 (mkTrie (Some 8))
    T_uint32 "ac" = Trie_Get two_keys.1 two_keys_trie T_uint32 "ac".
Proof.
  apply (Put_keeps_other_keys two_keys.1 two_keys_trie "ab" (V_uint32 9)).
  - apply Trie_wfb_sound. vm_compute. reflexivity.
  - vm_compute. reflexivity.
  - vm_compute. reflexivity.
Defined.

(** X3 — When [Put(k, v)] on a well-formed trie returns, a proper prefix [q]
    of [k] reads in the result as the value member of the object the receiver
    holds at [q]: every node on the path is cloned through its constructor,
    so a [TrieNodeWithValue] whose flag [Remove] had cleared reads as a value
    again. *)
Theorem Put_reads_prefix_objects (h : heap) (t : Trie) (k : string) (v : Value)
    (t' : Trie) (T : TypeId) (q : string) :
  Trie_wf h t → (Trie_Put t k v h).2 = Ok t' →
  String.prefix q k = true → q ≠ k →
  Trie_Get (Trie_Put t k v h).1 t' T q = Ok (read_object T (value_object_at h t q)).
Proof.
  intros Hwf Hok Hq Hne.
  destruct (Trie_Put t k v h) as [h' r] eqn:Hrun. simpl in *. subst r.
  by apply (Trie_Put_Get_prefix t k v h h' t').
Qed.

(** The key ["a"], removed, is read again after [Put("ab", 2)]. *)
Lemma Put_reads_prefix_objects_witness :
  Trie_Get removed_leaf.1 removed_leaf_trie T_uint32 "a" = Ok None ∧
  Trie_Get (Trie_Put removed_leaf_trie "ab" (V_uint32 2) removed_leaf.1).1 (mkTrie (Some 5))
    T_uint32 "a" = Ok (Some (V_uint32 1)).
Proof.
  split; [vm_compute; reflexivity|].
  change (Some (V_uint32 1))
    with (read_object T_uint32 (value_object_at removed_leaf.1 removed_leaf_trie "a")).
  apply (Put_reads_prefix_objects removed_leaf.1 removed_leaf_trie "ab" (V_uint32 2)).
  - apply Trie_wfb_sound. vm_compute. reflexivity.
  - vm_compute. reflexivity.
  - vm_compute. reflexivity.
  - discriminate.
Defined.

(** X4 — [Put] on a well-formed trie never returns the receiver: the trie it
    returns has a root allocated by this call, and it is well formed in the
    store the call leaves. *)
Theorem Put_returns_new_root (h : heap) (t : Trie) (k : string) (v : Value) (t' : Trie) :
  Trie_wf h t → (Trie_Put t k v h).2 = Ok t' →
  Trie_eqb t' t = false ∧ root_ t' = Some (length h) ∧ Trie_wf (Trie_Put t k v h).1 t'.
Proof.
  intros Hwf Hok. destruct (Trie_Put_wf t k v h Hwf) as (_ & _ & Hwf').
  destruct (Hwf' t' Hok) as [-> Hwft']. split; [|done].
  unfold Trie_eqb. apply bool_decide_eq_false_2. simpl. intros Heq.
  destruct Hwf as [_ Hroot]. symmetry in Heq. specialize (Hroot _ Heq). lia.
Qed.

Lemma Put_returns_new_root_witness :
  Trie_eqb (mkTrie (Some 8)) two_keys_trie = false ∧
  root_ (mkTrie (Some 8)) = Some (length two_keys.1) ∧
  Trie_wf (Trie_Put two_keys_trie "ab" (V_uint32 9) two_keys.1).1 (mkTrie (Some 8)).
Proof.
  apply (Put_returns_new_root two_keys.1 two_keys_trie "ab" (V_uint32 9)).
  - apply Trie_wfb_sound. vm_compute. reflexivity.
  - vm_compute. reflexivity.
Defined.

(** X5 — On a well-formed trie, [Remove(k)] with a key that is not empty
    returns, and what it returns is the receiver (the same root) exactly when
    the trie holds no [TrieNodeWithValue] object at [k]: the path is missing
    or ends on a plain node. *)
Theorem Remove_returns_receiver_iff (h : heap) (t : Trie) (k : string) :
  Trie_wf h t → k ≠ EmptyString →
  ∃ t', (Trie_Remove t k h).2 = Ok t' ∧
        (Trie_eqb t' t = true ↔ value_object_at h t k = None).
Proof.
  intros Hwf Hk.
  destruct (Trie_Remove_result t k h Hwf Hk) as (h' & Hrun & _).
  rewrite Hrun. simpl. eexists. split; [done|].
  destruct (value_object_at h t k) as [u|].
  - split; [|done]. unfold Trie_eqb. intros Heq%bool_decide_eq_true_1. simpl in Heq.
    destruct Hwf as [_ Hroot]. symmetry in Heq. specialize (Hroot _ Heq). lia.
  - split; [done|]. intros _. unfold Trie_eqb. by apply bool_decide_eq_true_2.
Qed.

Lemma Remove_returns_receiver_iff_witness :
  ∃ t', (Trie_Remove two_keys_trie "a" two_keys.1).2 = Ok t' ∧
        (Trie_eqb t' two_keys_trie = true ↔ value_object_at two_keys.1 two_keys_trie "a" = None).
Proof.
  apply (Remove_returns_receiver_iff two_keys.1 two_keys_trie "a").
  - apply Trie_wfb_sound. vm_compute. reflexivity.
  - discriminate.
Defined.

(** X6 — On a well-formed trie, when [Get<T>(k)] finds a value at a key that
    is not empty, [Remove(k)] returns a trie with a new root in which [Get]
    finds nothing at [k], for every type. *)
Theorem Remove_then_Get_absent (h : heap) (t : Trie) (k : string) (T : TypeId) (v : Value) :
  Trie_wf h t → k ≠ EmptyString → Trie_Get h t T k = Ok (Some v) →
  ∃ t', (Trie_Remove t k h).2 = Ok t' ∧ Trie_eqb t' t = false ∧
        ∀ T', Trie_Get (Trie_Remove t k h).1 t' T' k = Ok None.
Proof.
  intros Hwf Hk Hget.
  rewrite (Trie_Get_read h t T k Hwf) in Hget. injection Hget as Hget.
  destruct (node_at h t k) as [a|] eqn:Hat; [|done]. simpl in Hget.
  destruct (h !! a) as [n|] eqn:Hn; [|done]. simpl in Hget.
  assert (∃ u, value_ n = Some u) as [u Hu].
  { unfold read_node, cast_value in Hget. destruct (is_value_node_ n); [|done].
    destruct (value_ n); [eauto|done]. }
  destruct (Trie_Remove_result t k h Hwf Hk) as (h' & Hrun & _).
  assert (value_object_at h t k = Some u) as Hobj
    by (unfold value_object_at; rewrite Hat; simpl; by rewrite Hn).
  rewrite Hobj in Hrun.
  exists (mkTrie (Some (length h))). split; [by rewrite Hrun|]. split.
  - unfold Trie_eqb. apply bool_decide_eq_false_2. simpl. intros Heq.
    destruct Hwf as [_ Hroot]. symmetry in Heq. specialize (Hroot _ Heq). lia.
  - intros T'. destruct (Trie_Remove_Get t k h T' a n u Hwf Hk Hat Hn Hu) as (t'' & Ht'' & Hnone).
    rewrite Hrun in Ht'', Hnone. rewrite Hrun. simpl in *.
    injection Ht'' as <-. exact Hnone.
Qed.

Lemma Remove_then_Get_absent_witness :
  ∃ t', (Trie_Remove two_keys_trie "ab" two_keys.1).2 = Ok t' ∧
        Trie_eqb t' two_keys_trie = false ∧
        ∀ T', Trie_Get (Trie_Remove two_keys_trie "ab" two_keys.1).1 t' T' "ab" = Ok None.
Proof.
  apply (Remove_then_Get_absent two_keys.1 two_keys_trie "ab" T_uint32 (V_uint32 1)).
  - apply Trie_wfb_sound. vm_compute. reflexivity.
  - discriminate.
  - vm_compute. reflexivity.
Defined.

(** X7 — When [Remove(k)] on a well-formed trie returns, every key that is
    not a prefix of [k] reads in the result exactly as in the receiver, for
    every type. *)
Theorem Remove_keeps_other_keys (h : heap) (t : Trie) (k : string)
    (t' : Trie) (T : TypeId) (q : string) :
  Trie_wf h t → (Trie_Remove t k h).2 = Ok t' → String.prefix q k = false →
  Trie_Get (Trie_Remove t k h).1 t' T q = Trie_Get h t T q.
Proof.
  intros Hwf Hok Hq.
  destruct (Trie_Remove_wf t k h Hwf) as (_ & _ & Hwf').
  specialize (Hwf' t' Hok).
  destruct (Trie_Remove t k h) as [h' r] eqn:Hrun. simpl in *. subst r.
  apply read_shared; [done..| |].
  - by destruct (Trie_Remove_spec h t k h' (Ok t') Hrun).
  - by apply (Trie_Remove_node_at t k h h' t').
Qed.

Lemma Remove_keeps_other_keys_witness :
  Trie_Get (Trie_Remove two_keys_trie "ab" two_keys.1).1 (mkTrie (Some 8)) T_uint32 "ac"
    = Trie_Get two_keys.1 two_keys_trie T_uint32 "ac".
Proof.
  apply (Remove_keeps_other_keys two_keys.1 two_keys_trie "ab").
  - apply Trie_wfb_sound. vm_compute. reflexivity.
  - vm_compute. reflexivity.
  - vm_compute. reflexivity.
Defined.

(** ** Further properties of the store *)

Section store_more.
Implicit Types (h : heap) (t : Trie) (s : TrieStore) (st : heap * TrieStore).


Lemma foldl_step_op_heap_le ops : ∀ st, heap_le st.1 (foldl step_op st ops).1.
Proof.
  induction ops as [|op ops IH]; intros st; simpl; [apply heap_le_refl|].
  intros a n Ha. apply IH. by apply step_op_heap_le.
Qed.

Lemma Trie_eqb_new_root h t : Trie_wf h t → Trie_eqb (mkTrie (Some (length h))) t = false.
Proof.
  intros [_ Hroot]. unfold Trie_eqb. apply bool_decide_eq_false_2. simpl. intros Heq.
  symmetry in Heq. specialize (Hroot _ Heq). lia.
Qed.
End store_more.

(** X8 — [TrieStore::Get] with a version that is not the default [-1] and is
    not below the number of snapshots returns nothing, for any key and type,
    without reading a snapshot. *)
Theorem TrieStore_Get_out_of_range (h : heap) (s : TrieStore) (T : TypeId) (key : string)
    (version : Z) :
  version ≠ size_max → (Z.of_nat (length (snapshots_ s)) ≤ version)%Z →
  TrieStore_Get h s T key version = Ok None.
Proof.
  intros Hmax Hge. unfold TrieStore_Get. cbv zeta.
  destruct (decide (version = size_max)); [done|].
  destruct (decide _) as [|Hlt]; [done|lia].
Qed.

Lemma TrieStore_Get_out_of_range_witness :
  TrieStore_Get three_writes.1 three_writes.2 T_uint32 "car" 4 = Ok None.
Proof.
  apply TrieStore_Get_out_of_range.
  - vm_compute. discriminate.
  - vm_compute. discriminate.
Defined.

(** X9 — While the vector holds at most [SIZE_MAX] snapshots, [TrieStore::Get]
    at the index of a snapshot answers as [Trie::Get] on that snapshot and
    hands out a guard that holds that snapshot; with the default version it
    does so on the newest snapshot. *)
Theorem TrieStore_Get_reads_snapshot (h : heap) (s : TrieStore) (T : TypeId) (key : string) :
  (Z.of_nat (length (snapshots_ s)) ≤ size_max)%Z →
  (∀ n t, snapshots_ s !! n = Some t →
          TrieStore_Get h s T key (Z.of_nat n) = guard_of t (Trie_Get h t T key)) ∧
  (∀ t, last (snapshots_ s) = Some t →
        TrieStore_Get h s T key size_max = guard_of t (Trie_Get h t T key)).
Proof.
  intros Hmax. split.
  - intros n t Hn. apply TrieStore_Get_at; [done|].
    apply lookup_lt_Some in Hn. lia.
  - intros t Hl. by apply TrieStore_Get_default.
Qed.

(** After [Put("cat", 1)], [Put("car", 2)], [Remove("cat")]: version 1 still
    holds ["cat"], and the newest version holds ["car"]. *)
Lemma TrieStore_Get_reads_snapshot_witness :
  TrieStore_Get three_writes.1 three_writes.2 T_uint32 "cat" 1
    = Ok (Some (mkValueGuard (mkTrie (Some 0)) (V_uint32 1))) ∧
  TrieStore_Get three_writes.1 three_writes.2 T_uint32 "car" size_max
    = Ok (Some (mkValueGuard (mkTrie (Some 10)) (V_uint32 2))).
Proof.
  destruct (TrieStore_Get_reads_snapshot three_writes.1 three_writes.2 T_uint32 "cat")
    as [Hat _]; [vm_compute; discriminate|].
  destruct (TrieStore_Get_reads_snapshot three_writes.1 three_writes.2 T_uint32 "car")
    as [_ Hlast]; [vm_compute; discriminate|].
  split.
  - etrans; [apply (Hat 1 (mkTrie (Some 0))); vm_compute; reflexivity|].
    vm_compute. reflexivity.
  - etrans; [apply (Hlast (mkTrie (Some 10))); vm_compute; reflexivity|].
    vm_compute. reflexivity.
Defined.


(** X11 — A read at a version that exists keeps its answer through any
    further sequence of operations: what [TrieStore::Get] returned at that
    version before, guard and value, it returns afterwards. *)
Theorem old_versions_read_the_same (st : heap * TrieStore) (ops : list store_op)
    (T : TypeId) (key : string) (n : nat) (g : option ValueGuard) :
  n < length (snapshots_ st.2) → Z.of_nat n ≠ size_max →
  TrieStore_Get st.1 st.2 T key (Z.of_nat n) = Ok g →
  TrieStore_Get (foldl step_op st ops).1 (foldl step_op st ops).2 T key (Z.of_nat n) = Ok g.
Proof.
  intros Hn Hmax Hget.
  destruct (lookup_lt_is_Some_2 (snapshots_ st.2) n Hn) as [t Ht].
  rewrite (TrieStore_Get_at _ _ _ _ n t Ht Hmax) in Hget.
  assert (snapshots_ (foldl step_op st ops).2 !! n = Some t) as Ht'.
  { destruct (foldl_step_op_prefix ops st) as [k ->]. by apply lookup_app_l_Some. }
  rewrite (TrieStore_Get_at _ _ _ _ n t Ht' Hmax).
  eapply guard_of_heap_le; [|done]. apply foldl_step_op_heap_le.
Qed.

(** Version 1 holds ["cat"] after [Put("cat", 1)] and still does after
    [Put("car", 2)] and [Remove("cat")]. *)
Lemma old_versions_read_the_same_witness :
  TrieStore_Get
    (foldl step_op one_write [OpPut "car" (V_uint32 2); OpRemove "cat"]).1
    (foldl step_op one_write [OpPut "car" (V_uint32 2); OpRemove "cat"]).2
    T_uint32 "cat" 1
  = Ok (Some (mkValueGuard (mkTrie (Some 0)) (V_uint32 1))).
Proof.
  apply (old_versions_read_the_same one_write
           [OpPut "car" (V_uint32 2); OpRemove "cat"] T_uint32 "cat" 1).
  - vm_compute. lia.
  - vm_compute. discriminate.
  - vm_compute. reflexivity.
Defined.

(** X12 — On a well-formed store whose vector is short of [SIZE_MAX],
    [TrieStore::Put<T>(key, v)] with a key that is not empty appends exactly
    one snapshot, and [TrieStore::Get<T>(key)] with the default version then
    returns a guard on that snapshot with the value [v], provided the newest
    snapshot held no value of another type at the key. *)
Theorem TrieStore_Put_then_Get (h : heap) (s : TrieStore) (key : string) (v : Value) :
  Store_wf h s → key ≠ EmptyString →
  (Z.of_nat (length (snapshots_ s)) < size_max)%Z →
  (∀ cur u, last (snapshots_ s) = Some cur → value_object_at h cur key = Some u →
            type_of u = type_of v) →
  ∃ t', snapshots_ (TrieStore_Put s key v h).1.2 = snapshots_ s ++ [t'] ∧
        TrieStore_Get (TrieStore_Put s key v h).1.1 (TrieStore_Put s key v h).1.2
                      (type_of v) key size_max
          = Ok (Some (mkValueGuard t' v)).
Proof.
  intros Hwf Hk Hmax Hty.
  destruct (Store_wf_last h s Hwf) as (cur & Hl & Hcur).
  destruct (Trie_Put_total v cur key h Hcur Hk) as (t' & Hok & _).
  unfold TrieStore_Put. rewrite Hl.
  destruct (Trie_Put cur key v h) as [h' r] eqn:Hrun. simpl in Hok. subst r. simpl.
  exists t'. split; [done|].
  rewrite (TrieStore_Get_default h' (push_back s t') (type_of v) key t').
  - destruct Hcur as [Hcl Hroot].
    rewrite (Trie_Put_Get h v Hcl cur key h' t' Hroot); [done| |done].
    intros a n u Hat Hn Hu. apply (Hty cur u Hl). unfold value_object_at.
    rewrite Hat. simpl. by rewrite Hn.
  - simpl. apply last_snoc.
  - simpl. rewrite length_app. simpl. lia.
Qed.

Lemma TrieStore_Put_then_Get_witness :
  ∃ t', snapshots_ (TrieStore_Put three_writes.2 "cab" (V_string "x") three_writes.1).1.2
          = snapshots_ three_writes.2 ++ [t'] ∧
        TrieStore_Get (TrieStore_Put three_writes.2 "cab" (V_string "x") three_writes.1).1.1
                      (TrieStore_Put three_writes.2 "cab" (V_string "x") three_writes.1).1.2
                      T_string "cab" size_max
          = Ok (Some (mkValueGuard t' (V_string "x"))).
Proof.
  apply (TrieStore_Put_then_Get three_writes.1 three_writes.2 "cab" (V_string "x")).
  - apply Store_wfb_sound. vm_compute. reflexivity.
  - discriminate.
  - vm_compute. reflexivity.
  - intros cur u Hl Hu. vm_compute in Hl. injection Hl as <-. vm_compute in Hu. discriminate.
Defined.

(** X13 — On a well-formed store whose vector is short of [SIZE_MAX], when
    the newest snapshot holds a value at a key that is not empty,
    [TrieStore::Remove(key)] appends exactly one snapshot and
    [TrieStore::Get(key)] with the default version then returns nothing, for
    every type. *)
Theorem TrieStore_Remove_then_Get (h : heap) (s : TrieStore) (key : string)
    (cur : Trie) (T : TypeId) (v : Value) :
  Store_wf h s → key ≠ EmptyString →
  (Z.of_nat (length (snapshots_ s)) < size_max)%Z →
  last (snapshots_ s) = Some cur → Trie_Get h cur T key = Ok (Some v) →
  ∃ t', snapshots_ (TrieStore_Remove s key h).1.2 = snapshots_ s ++ [t'] ∧
        ∀ T', TrieStore_Get (TrieStore_Remove s key h).1.1 (TrieStore_Remove s key h).1.2
                            T' key size_max = Ok None.
Proof.
  intros Hwf Hk Hmax Hl Hget.
  destruct (Store_wf_last h s Hwf) as (cur' & Hl' & Hcur).
  assert (cur' = cur) as -> by congruence.
  rewrite (Trie_Get_read h cur T key Hcur) in Hget. injection Hget as Hget.
  destruct (node_at h cur key) as [a|] eqn:Hat; [|done]. simpl in Hget.
  destruct (h !! a) as [n|] eqn:Hn; [|done]. simpl in Hget.
  assert (∃ u, value_ n = Some u) as [u Hu].
  { unfold read_node, cast_value in Hget. destruct (is_value_node_ n); [|done].
    destruct (value_ n); [eauto|done]. }
  destruct (Trie_Remove_result cur key h Hcur Hk) as (h' & Hrun & _).
  assert (value_object_at h cur key = Some u) as Hobj
    by (unfold value_object_at; rewrite Hat; simpl; by rewrite Hn).
  rewrite Hobj in Hrun.
  unfold TrieStore_Remove. rewrite Hl, Hrun.
  rewrite (Trie_eqb_new_root h cur Hcur). simpl.
  eexists. split; [done|]. intros T'.
  rewrite (TrieStore_Get_default h' (push_back s (mkTrie (Some (length h)))) T' key
             (mkTrie (Some (length h)))).
  - destruct (Trie_Remove_Get cur key h T' a n u Hcur Hk Hat Hn Hu) as (t'' & Ht'' & Hnone).
    rewrite Hrun in Ht'', Hnone. simpl in *. injection Ht'' as <-. by rewrite Hnone.
  - simpl. apply last_snoc.
  - simpl. rewrite length_app. simpl. lia.
Qed.

Lemma TrieStore_Remove_then_Get_witness :
  ∃ t', snapshots_ (TrieStore_Remove three_writes.2 "car" three_writes.1).1.2
          = snapshots_ three_writes.2 ++ [t'] ∧
        ∀ T', TrieStore_Get (TrieStore_Remove three_writes.2 "car" three_writes.1).1.1
                            (TrieStore_Remove three_writes.2 "car" three_writes.1).1.2
                            T' "car" size_max = Ok None.
Proof.
  apply (TrieStore_Remove_then_Get three_writes.1 three_writes.2 "car"
           (mkTrie (Some 10)) T_uint32 (V_uint32 2)).
  - apply Store_wfb_sound. vm_compute. reflexivity.
  - discriminate.
  - vm_compute. reflexivity.
  - vm_compute. reflexivity.
  - vm_compute. reflexivity.
Defined.

(** X14 — On a well-formed store, [TrieStore::Remove(key)] with a key that is
    not empty appends nothing and returns [get_version()] when the newest
    snapshot holds no [TrieNodeWithValue] object at the key (the path is
    missing or ends on a plain node). *)
Theorem TrieStore_Remove_absent_is_noop (h : heap) (s : TrieStore) (key : string) (cur : Trie) :
  Store_wf h s → key ≠ EmptyString →
  last (snapshots_ s) = Some cur → value_object_at h cur key = None →
  (TrieStore_Remove s key h).1.2 = s ∧
  (TrieStore_Remove s key h).2 = Ok (get_version s).
Proof.
  intros Hwf Hk Hl Hobj.
  destruct (Store_wf_last h s Hwf) as (cur' & Hl' & Hcur).
  assert (cur' = cur) as -> by congruence.
  destruct (Trie_Remove_result cur key h Hcur Hk) as (h' & Hrun & _).
  rewrite Hobj in Hrun. unfold TrieStore_Remove. rewrite Hl, Hrun.
  unfold Trie_eqb. rewrite bool_decide_eq_true_2 by done. done.
Qed.

(** Scenario 5 of the specification, after three writes: [Remove("dog")]. *)
Lemma TrieStore_Remove_absent_is_noop_witness :
  (TrieStore_Remove three_writes.2 "dog" three_writes.1).1.2 = three_writes.2 ∧
  (TrieStore_Remove three_writes.2 "dog" three_writes.1).2 = Ok (get_version three_writes.2).
Proof.
  apply (TrieStore_Remove_absent_is_noop three_writes.1 three_writes.2 "dog" (mkTrie (Some 10))).
  - apply Store_wfb_sound. vm_compute. reflexivity.
  - discriminate.
  - vm_compute. reflexivity.
  - vm_compute. reflexivity.
Defined.
